(** * Connected-component labelling (CCUtil.hpp)

    A shallow embedding of the header [CCUtil.hpp] and the verification of
    its labelling algorithm: a breadth-first flood fill over grid
    coordinates, parameterised by a pixel accessor, a pixel classifier and a
    connectivity policy. *)

From Stdlib.Strings Require Import Byte.
From stdpp Require Import base numbers list strings gmap sets relations.
From stdpp Require Import sorting.

Local Open Scope Z_scope.

(** ** Machine integers

    [IntSizeType] is [int]: a 32-bit two's complement integer.  Values are
    kept in [Z]; every arithmetic operation of the source is followed by
    [wrap].  (Signed overflow is undefined in C++; the theorems below state
    the ranges in which no wrap-around happens.) *)

Module Int.
Definition min_int : Z := - 2 ^ 31.
Definition max_int : Z := 2 ^ 31 - 1.
Definition wrap (z : Z) : Z := (z - min_int) `mod` 2 ^ 32 + min_int.
Definition add (a b : Z) : Z := wrap (a + b).
Definition sub (a b : Z) : Z := wrap (a - b).
Definition mul (a b : Z) : Z := wrap (a * b).
Definition in_range (z : Z) : Prop := min_int ≤ z ≤ max_int.
End Int.

(** [IntPair] is [std::pair<IntSizeType, IntSizeType>]: (row, column). *)
Definition IntPair : Type := Z * Z.

(** ** Exceptions and outcomes

    Both failures of the source are [std::runtime_error]s, told apart by
    their message.  [std::vector::resize] raises [std::length_error] when
    asked for more than [max_size()] elements, which is what a negative
    [int] converted to [size_t] amounts to.  [OutOfFuel] is not a result of
    the program: it marks a run of the model that was given too little fuel
    for its [while] loop. *)

Inductive exn : Type :=
  | runtime_error (what : string)
  | length_error.

Definition InvalidDimension : exn := runtime_error "invalid size".
Definition UnsupportedPixelType : exn := runtime_error "unsupported type".

Inductive outcome (A : Type) : Type :=
  | Ok (a : A)
  | Throw (e : exn)
  | OutOfFuel.
Arguments Ok {A} a.
Arguments Throw {A} e.
Arguments OutOfFuel {A}.

#[global] Instance outcome_ret : MRet outcome := λ A a, Ok a.
#[global] Instance outcome_bind : MBind outcome := λ A B f m,
  match m with
  | Ok a => f a
  | Throw e => Throw e
  | OutOfFuel => OutOfFuel
  end.

(** A [for] loop over a list whose body may throw. *)
Fixpoint foldM {A B : Type} (f : A → B → outcome A) (a : A) (l : list B)
    : outcome A :=
  match l with
  | [] => Ok a
  | x :: l' => a' ← f a x; foldM f a' l'
  end.

(** ** Pixel classifier: [BinaryPredicate<ImgDT>] *)

Class BinaryPredicate (ImgDT : Type) := pred : ImgDT → outcome bool.

(** The primary template: any type without a specialisation. *)
Definition BinaryPredicate_primary (ImgDT : Type) : BinaryPredicate ImgDT :=
  λ _, Throw (runtime_error "unsupported type").

(** [BinaryPredicate<bool>] *)
#[global] Instance BinaryPredicate_bool : BinaryPredicate bool :=
  λ val, Ok val.

(** [BinaryPredicate<char>]: [return val;] converts the [char] to [bool],
    which is [true] exactly for a nonzero value. *)
#[global] Instance BinaryPredicate_char : BinaryPredicate byte :=
  λ val, Ok (negb (Byte.eqb val x00)).

(** ** Pixel accessors *)

Class Access (ImgType ImgDT : Type) := access : ImgType → Z → Z → ImgDT.

(** [RoundBracketAccess]: [img(row, col)], an image that is callable. *)
Definition RoundBracketAccess (ImgDT : Type) : Access (Z → Z → ImgDT) ImgDT :=
  λ img row col, img row col.

(** [SquareBracketAccess]: [img[row][col]], an image that is a sequence of
    rows.  Indexing outside the image is undefined in C++; the model reads
    the default element of [ImgDT] there. *)
Definition SquareBracketAccess (ImgDT : Type) `{Inhabited ImgDT}
    : Access (list (list ImgDT)) ImgDT :=
  λ img row col, (img !!! Z.to_nat row) !!! Z.to_nat col.

(** ** Label grid: [Quick2DSizeT] *)

Module Quick2DSizeT.
Record t : Type := mk { cols : Z; data : list Z }.

Definition NOLABEL : Z := Int.min_int.

(** The constructor: [data.resize(rows * cols, NOLABEL); this->cols = cols].
    The product is an [int]; [resize] takes a [size_t]. *)
Definition new (rows cols : Z) : outcome t :=
  let n := Int.mul rows cols in
  if bool_decide (n < 0) then Throw length_error
  else Ok {| cols := cols; data := replicate (Z.to_nat n) NOLABEL |}.

(** [row * this->cols + col] *)
Definition slot (s : t) (row col : Z) : Z :=
  Int.add (Int.mul row (cols s)) col.

(** [operator()] used as an rvalue.  [std::vector::operator[]] is
    unchecked: outside the vector the behaviour is undefined, and the
    model reads [0]. *)
Definition get (s : t) (row col : Z) : Z :=
  let k := slot s row col in
  if bool_decide (k < 0) then 0 else default 0 (data s !! Z.to_nat k).

(** [operator()] used as an lvalue: [s(row, col) = v].  Outside the vector
    the model leaves the grid as it is. *)
Definition set (s : t) (row col : Z) (v : Z) : t :=
  let k := slot s row col in
  if bool_decide (k < 0) then s
  else {| cols := cols s; data := <[Z.to_nat k := v]> (data s) |}.
End Quick2DSizeT.

(** ** Connectivity policies *)

Class Connectivity := GetNeighbour : IntPair → list IntPair.

Definition FourConnect : Connectivity := λ pos,
  [ (Int.add pos.1 1, pos.2);
    (pos.1, Int.add pos.2 1);
    (Int.sub pos.1 1, pos.2);
    (pos.1, Int.sub pos.2 1) ].

(** Two nested loops over the offsets -1, 0, 1, skipping (0, 0). *)
Definition EightConnect : Connectivity := λ pos,
  foldl (λ result i,
    foldl (λ result j,
      if bool_decide (i = j ∧ i = 0) then result
      else result ++ [(Int.add pos.1 i, Int.add pos.2 j)])
      result (seqZ (-1) 3))
    [] (seqZ (-1) 3).

(** ** The work queue: [std::queue<IntPair>]

    [items] is the content of the queue, front first.  [pushed] is a history
    the program never reads: every element ever pushed, oldest first.
    [front] is [None] exactly when the queue is empty. *)

Module Queue.
Record t : Type := mk { items : list IntPair; pushed : list IntPair }.
Definition empty : t := mk [] [].
Definition push (q : t) (x : IntPair) : t :=
  mk (items q ++ [x]) (pushed q ++ [x]).
Definition front (q : t) : option IntPair := head (items q).
Definition pop (q : t) : t := mk (tail (items q)) (pushed q).
End Queue.

(** ** The component finder: [ConnectComponentFinder] *)

Abbreviation cc_result_type := (gset IntPair) (only parsing).
Abbreviation result_type := (list (gset IntPair)) (only parsing).

(** [labelStart = Quick2DSizeT::NOLABEL + 1] *)
Definition labelStart : Z := Int.add Quick2DSizeT.NOLABEL 1.

Definition IsPixelPosValid (size pos : IntPair) : bool :=
  bool_decide (pos.1 >= 0) && bool_decide (pos.1 < size.1)
  && bool_decide (pos.2 >= 0) && bool_decide (pos.2 < size.2).

(** The variables of [operator()] that live across its loops. *)
Record state : Type := mkState {
  labelStorage : Quick2DSizeT.t;
  currentLabel : Z;
  myQueue : Queue.t
}.

Section Finder.
Context {ImgType ImgDT : Type}.
Context {acc : Access ImgType ImgDT}.
Context {bp : BinaryPredicate ImgDT}.
Context {connect : Connectivity}.

Variable img : ImgType.
Variable size : IntPair.

(** Body of [for (const auto &pixelPos : neighbour)]. *)
Definition visit_neighbour (st : state) (pixelPos : IntPair) : outcome state :=
  if IsPixelPosValid size pixelPos then
    let neighbourPixelVal := access img pixelPos.1 pixelPos.2 in
    fg ← pred neighbourPixelVal;
    if fg && bool_decide (Quick2DSizeT.get (labelStorage st) pixelPos.1 pixelPos.2
                          = Quick2DSizeT.NOLABEL)
    then Ok {| labelStorage :=
                 Quick2DSizeT.set (labelStorage st) pixelPos.1 pixelPos.2
                                  (currentLabel st);
               currentLabel := currentLabel st;
               myQueue := Queue.push (myQueue st) pixelPos |}
    else Ok st
  else Ok st.

(** [while (!myQueue.empty()) { front = myQueue.front(); myQueue.pop(); ... }]:
    one unit of fuel per iteration. *)
Fixpoint drain_queue (fuel : nat) (st : state) : outcome state :=
  match Queue.front (myQueue st) with
  | None => Ok st
  | Some front =>
      match fuel with
      | O => OutOfFuel
      | S fuel' =>
          let popped := {| labelStorage := labelStorage st;
                           currentLabel := currentLabel st;
                           myQueue := Queue.pop (myQueue st) |} in
          let neighbour := GetNeighbour front in
          st' ← foldM visit_neighbour popped neighbour;
          drain_queue fuel' st'
      end
  end.

(** Body of the inner [for (j ...)] of the marking scan, at pixel (i, j). *)
Definition scan_pixel (fuel : nat) (i : Z) (st : state) (j : Z) : outcome state :=
  let pixelVal := access img i j in
  isForeground ← pred pixelVal;
  if (isForeground : bool) then
    let unlabelled :=
      bool_decide (Quick2DSizeT.get (labelStorage st) i j = Quick2DSizeT.NOLABEL) in
    let st1 :=
      if unlabelled
      then {| labelStorage :=
                Quick2DSizeT.set (labelStorage st) i j (currentLabel st);
              currentLabel := currentLabel st;
              myQueue := Queue.push (myQueue st) (i, j) |}
      else st in
    let enteredQueue := unlabelled in
    st2 ← drain_queue fuel st1;
    if enteredQueue
    then Ok {| labelStorage := labelStorage st2;
               currentLabel := Int.add (currentLabel st2) 1;
               myQueue := myQueue st2 |}
    else Ok st2
  else Ok st.

(** The marking scan: [for (i ...) for (j ...)]. *)
Definition mark_components (fuel : nat) (st : state) : outcome state :=
  foldM (λ st i, foldM (scan_pixel fuel i) st (seqZ 0 size.2))
        st (seqZ 0 size.1).

(** The collecting scan.  [result[index]] is unchecked; outside [result]
    the model leaves it as it is. *)
Definition collect_result (labels : Quick2DSizeT.t) (result : result_type)
    : result_type :=
  foldl (λ result i,
    foldl (λ result j,
      if bool_decide (Quick2DSizeT.get labels i j ≠ Quick2DSizeT.NOLABEL) then
        let index := Int.sub (Quick2DSizeT.get labels i j) labelStart in
        if bool_decide (index < 0) then result
        else alter (λ cc : cc_result_type, {[ (i, j) ]} ∪ cc) (Z.to_nat index) result
      else result)
      result (seqZ 0 size.2))
    result (seqZ 0 size.1).

(** The label grid, the initial state and the marking scan. *)
Definition run_marking (fuel : nat) : outcome state :=
  labels ← Quick2DSizeT.new size.1 size.2;
  mark_components fuel {| labelStorage := labels;
                          currentLabel := labelStart;
                          myQueue := Queue.empty |}.

(** [ConnectComponentFinder::operator()(img, size)] *)
Definition ConnectComponentFinder (fuel : nat) : outcome result_type :=
  if bool_decide (size.1 < 1 ∨ size.2 < 1) then Throw (runtime_error "invalid size")
  else
    st ← run_marking fuel;
    let numOfCC := Int.sub (currentLabel st) labelStart in
    if bool_decide (numOfCC < 0) then Throw length_error
    else Ok (collect_result (labelStorage st) (replicate (Z.to_nat numOfCC) ∅)).
End Finder.

(** * Vocabulary of the specification *)

(** A classifier is total when it classifies every value of its type. *)
Definition supported {ImgDT : Type} (bp : BinaryPredicate ImgDT) : Prop :=
  ∀ v : ImgDT, ∃ b : bool, pred v = Ok b.

(** Coordinates of a [size.1] × [size.2] grid. *)
Definition in_grid (size pos : IntPair) : Prop :=
  0 ≤ pos.1 < size.1 ∧ 0 ≤ pos.2 < size.2.

(** The label of a coordinate, and the number of slots still unlabelled. *)
Definition lab (L : Quick2DSizeT.t) (p : IntPair) : Z :=
  Quick2DSizeT.get L p.1 p.2.

Definition relabel (L : Quick2DSizeT.t) (p : IntPair) (v : Z) : Quick2DSizeT.t :=
  Quick2DSizeT.set L p.1 p.2 v.

Definition free (L : Quick2DSizeT.t) : nat :=
  length (filter (λ x, x = Quick2DSizeT.NOLABEL) (Quick2DSizeT.data L)).

(** A grid of the shape the constructor gives it. *)
Definition wf (size : IntPair) (L : Quick2DSizeT.t) : Prop :=
  Quick2DSizeT.cols L = size.2 ∧
  length (Quick2DSizeT.data L) = Z.to_nat (size.1 * size.2).

(** The grid in row-major order: the order of both scans. *)
Definition scan_order (size : IntPair) : list IntPair :=
  i ← seqZ 0 size.1; (λ j, (i, j)) <$> seqZ 0 size.2.

(** [member result k x]: the coordinate [x] is in component [k] of [result]. *)
Definition member (result : result_type) (k : nat) (x : IntPair) : Prop :=
  ∃ cc : cc_result_type, result !! k = Some cc ∧ x ∈ cc.

(** The labels held by a grid. *)
Definition assigned_labels (L : Quick2DSizeT.t) : gset Z :=
  list_to_set (filter (λ v, v ≠ Quick2DSizeT.NOLABEL) (Quick2DSizeT.data L)).

Section Vocabulary.
Context {ImgType ImgDT : Type}.
Context {acc : Access ImgType ImgDT}.
Context {bp : BinaryPredicate ImgDT}.
Context {connect : Connectivity}.

Variable img : ImgType.
Variable size : IntPair.

(** A foreground coordinate: in the grid, and classified as foreground. *)
Definition foreground (p : IntPair) : Prop :=
  in_grid size p ∧ pred (access img p.1 p.2) = Ok true.

(** [path p q]: a sequence of foreground coordinates from [p] to [q], each
    one a neighbour of the one before it. *)
Inductive path : IntPair → IntPair → Prop :=
  | path_refl p : foreground p → path p p
  | path_step p q r : foreground p → q ∈ GetNeighbour p → path q r → path p r.

(** Labels already given are kept. *)
Definition keeps (L L' : Quick2DSizeT.t) : Prop :=
  ∀ p, in_grid size p → lab L p ≠ Quick2DSizeT.NOLABEL → lab L' p = lab L p.

(** [grow c added L L']: the grid [L'] is [L] with the label [c] written to
    the coordinates [added], each of them foreground and unlabelled in [L]. *)
Definition grow (c : Z) (added : list IntPair) (L L' : Quick2DSizeT.t) : Prop :=
  wf size L' ∧ NoDup added ∧
  (∀ p, p ∈ added → foreground p ∧ lab L p = Quick2DSizeT.NOLABEL) ∧
  (∀ p, in_grid size p → lab L' p = if decide (p ∈ added) then c else lab L p) ∧
  free L = (free L' + length added)%nat.

(** What one or more visits do to the state: they label and enqueue the
    coordinates [added], and they leave the current label alone. *)
Definition extends (added : list IntPair) (st st' : state) : Prop :=
  grow (currentLabel st) added (labelStorage st) (labelStorage st') ∧
  currentLabel st' = currentLabel st ∧
  Queue.items (myQueue st') = Queue.items (myQueue st) ++ added ∧
  Queue.pushed (myQueue st') = Queue.pushed (myQueue st) ++ added.

(** The connectivity policy is symmetric on the grid. *)
Definition symmetric : Prop :=
  ∀ p q, in_grid size p → in_grid size q →
         q ∈ GetNeighbour p → p ∈ GetNeighbour q.

(** A seed: a foreground pixel that has no label when the marking scan
    reaches it (the condition under which [enteredQueue] becomes true). *)
Definition is_seed (st : state) (p : IntPair) : bool :=
  match pred (access img p.1 p.2) with
  | Ok true => bool_decide (lab (labelStorage st) p = Quick2DSizeT.NOLABEL)
  | _ => false
  end.

(** The seeds the marking scan meets on the coordinates [l], in order. *)
Fixpoint seeds_from (fuel : nat) (st : state) (l : list IntPair) : list IntPair :=
  match l with
  | [] => []
  | p :: l' =>
      (if is_seed st p then [p] else []) ++
      match scan_pixel img size fuel p.1 st p.2 with
      | Ok st' => seeds_from fuel st' l'
      | _ => []
      end
  end.

(** The invariant of the marking scan, between two pixels: [done] are the
    coordinates already scanned and [seeds] the seeds met so far. *)
Record scan_inv (done seeds : list IntPair) (st : state) : Prop := {
  inv_wf : wf size (labelStorage st);
  inv_queue : Queue.items (myQueue st) = [];
  inv_label : currentLabel st = labelStart + Z.of_nat (length seeds);
  inv_count : (length seeds ≤ length done)%nat;
  inv_sound : ∀ p, in_grid size p → lab (labelStorage st) p ≠ Quick2DSizeT.NOLABEL →
    foreground p ∧ labelStart ≤ lab (labelStorage st) p < currentLabel st;
  inv_done : ∀ p, p ∈ done → foreground p →
    lab (labelStorage st) p ≠ Quick2DSizeT.NOLABEL;
  inv_seed : ∀ k s, seeds !! k = Some s →
    foreground s ∧ lab (labelStorage st) s = labelStart + Z.of_nat k ∧
    ∀ p, in_grid size p → lab (labelStorage st) p = labelStart + Z.of_nat k → path s p;
  inv_closed : symmetric → ∀ p n,
    in_grid size p → lab (labelStorage st) p ≠ Quick2DSizeT.NOLABEL →
    n ∈ GetNeighbour p → foreground n →
    lab (labelStorage st) n = lab (labelStorage st) p;
  inv_history : NoDup (Queue.pushed (myQueue st));
  inv_pushed : ∀ p, p ∈ Queue.pushed (myQueue st) ↔
    in_grid size p ∧ lab (labelStorage st) p ≠ Quick2DSizeT.NOLABEL
}.

(** The seeds of a run of the finder. *)
Definition seeds (fuel : nat) : list IntPair :=
  match Quick2DSizeT.new size.1 size.2 with
  | Ok labels =>
      seeds_from fuel {| labelStorage := labels;
                         currentLabel := labelStart;
                         myQueue := Queue.empty |} (scan_order size)
  | _ => []
  end.

(** [stable st st']: from [st] to [st'] the grid keeps its shape and every
    label it holds. *)
Definition stable (st st' : state) : Prop :=
  wf size (labelStorage st) →
  wf size (labelStorage st') ∧ keeps (labelStorage st) (labelStorage st').

End Vocabulary.

(** The 3×3 grid with foreground at (0,0), (0,1), (1,1) and (2,2). *)
Definition scenario_grid : list (list bool) :=
  [ [true; true; false]; [false; true; false]; [false; false; true] ].

(** The 2×2 checkerboard with foreground at (0,0) and (1,1). *)
Definition checkerboard : list (list bool) :=
  [ [true; false]; [false; true] ].

(** Row-major order on coordinates: the order in which the scans visit. *)
Definition row_major_lt (p q : IntPair) : Prop :=
  p.1 < q.1 ∨ (p.1 = q.1 ∧ p.2 < q.2).

(** [seeds_lead done seeds L]: in the scanned coordinates [done], no
    coordinate that comes before the [k]-th seed carries the [k]-th label. *)
Definition seeds_lead (done seeds : list IntPair) (L : Quick2DSizeT.t) : Prop :=
  ∀ k s, seeds !! k = Some s →
    ∃ pre post, done = pre ++ s :: post ∧
      ∀ x, x ∈ pre → lab L x ≠ labelStart + Z.of_nat k.

(** The scenario grid with a fourth column and a fourth row that a 3×3
    run has no business reading. *)
Definition padded_grid : list (list bool) :=
  [ [true; true; false; true]; [false; true; false; true];
    [false; false; true; true]; [true; true; true; true] ].

(** An image, read with round brackets, whose every pixel is foreground. *)
Definition solid_image : Z → Z → bool := λ _ _, true.

(** * Verification *)


(** ** Machine-integer facts *)

Lemma wrap_in_range z : Int.in_range z → Int.wrap z = z.
Proof.
  unfold Int.in_range, Int.wrap, Int.min_int, Int.max_int. intros Hz.
  rewrite Z.mod_small; lia.
Qed.

Lemma labelStart_eq : labelStart = Int.min_int + 1.
Proof. reflexivity. Qed.

Lemma NOLABEL_lt_labelStart : Quick2DSizeT.NOLABEL < labelStart.
Proof. rewrite labelStart_eq. unfold Quick2DSizeT.NOLABEL. lia. Qed.

(** ** Pixel classifier (C4, C5 at the level of the classifier) *)

Lemma supported_bool : supported BinaryPredicate_bool.
Proof. intros v. by exists v. Qed.

Lemma supported_char : supported BinaryPredicate_char.
Proof. intros v. by eexists. Qed.


(** C4.  The built-in classifiers are total functions: on a [bool] pixel the
    classifier returns the pixel itself, on a [char] pixel it returns [true]
    exactly when the value is not zero; neither ever throws. *)
Theorem builtin_classifier_total :
  (∀ val : bool, pred val = Ok val) ∧
  (∀ val : byte, ∃ b : bool, pred val = Ok b ∧ (b = true ↔ Byte.to_N val ≠ 0%N)) ∧
  supported BinaryPredicate_bool ∧ supported BinaryPredicate_char.
Proof.
  split_and!; [done | | apply supported_bool | apply supported_char].
  intros val. eexists. split; [reflexivity |]. by destruct val.
Qed.

(** ** Neighbour generators (C8) *)

Lemma add_exact a b : Int.in_range (a + b) → Int.add a b = a + b.
Proof. apply wrap_in_range. Qed.

Lemma sub_exact a b : Int.in_range (a - b) → Int.sub a b = a - b.
Proof. apply wrap_in_range. Qed.

Lemma mul_exact a b : Int.in_range (a * b) → Int.mul a b = a * b.
Proof. apply wrap_in_range. Qed.

Lemma FourConnect_exact r c :
  Int.min_int < r < Int.max_int → Int.min_int < c < Int.max_int →
  @GetNeighbour FourConnect (r, c) = [(r + 1, c); (r, c + 1); (r - 1, c); (r, c - 1)].
Proof.
  intros Hr Hc. unfold GetNeighbour, FourConnect. simpl.
  rewrite !add_exact, !sub_exact; first done; unfold Int.in_range; lia.
Qed.

Lemma EightConnect_exact r c :
  Int.min_int < r < Int.max_int → Int.min_int < c < Int.max_int →
  @GetNeighbour EightConnect (r, c) =
    [(r - 1, c - 1); (r - 1, c); (r - 1, c + 1);
     (r, c - 1); (r, c + 1);
     (r + 1, c - 1); (r + 1, c); (r + 1, c + 1)].
Proof.
  intros Hr Hc. unfold GetNeighbour, EightConnect.
  assert (seqZ (-1) 3 = [-1; 0; 1]) as -> by reflexivity.
  cbn -[Int.add].
  rewrite !add_exact by (unfold Int.in_range; lia).
  rewrite !Z.add_0_r. replace (r + -1) with (r - 1) by lia.
  by replace (c + -1) with (c - 1) by lia.
Qed.

Lemma EightConnect_elem r c q :
  Int.min_int < r < Int.max_int → Int.min_int < c < Int.max_int →
  q ∈ @GetNeighbour EightConnect (r, c) ↔
  ∃ dr dc, -1 ≤ dr ≤ 1 ∧ -1 ≤ dc ≤ 1 ∧ ¬ (dr = 0 ∧ dc = 0) ∧ q = (r + dr, c + dc).
Proof.
  intros Hr Hc. rewrite EightConnect_exact by done.
  rewrite !elem_of_cons, elem_of_nil. split.
  - intros H. destruct_or!; try done; subst q.
    + exists (-1), (-1). split_and!; try lia. f_equal; lia.
    + exists (-1), 0. split_and!; try lia. f_equal; lia.
    + exists (-1), 1. split_and!; try lia. f_equal; lia.
    + exists 0, (-1). split_and!; try lia. f_equal; lia.
    + exists 0, 1. split_and!; try lia. f_equal; lia.
    + exists 1, (-1). split_and!; try lia. f_equal; lia.
    + exists 1, 0. split_and!; try lia. f_equal; lia.
    + exists 1, 1. split_and!; try lia. f_equal; lia.
  - intros (dr & dc & Hdr & Hdc & Hne & ->).
    assert (dr = -1 ∨ dr = 0 ∨ dr = 1) as Hd1 by lia.
    assert (dc = -1 ∨ dc = 0 ∨ dc = 1) as Hd2 by lia.
    destruct_or!; subst; try (exfalso; apply Hne; done);
      rewrite ?Z.add_0_r; auto 10.
Qed.

(** C8.  At every coordinate whose components have a representable
    predecessor and successor (every coordinate of a grid is one), the
    4-connectivity generator returns the four axis-aligned neighbours and
    the 8-connectivity generator the eight surrounding coordinates, as fixed
    lists; nothing is filtered, so the lists may hold coordinates that are
    negative or outside the grid. *)
Theorem neighbour_generators_exact (r c : Z) :
  Int.min_int < r < Int.max_int → Int.min_int < c < Int.max_int →
  @GetNeighbour FourConnect (r, c)
    = [(r + 1, c); (r, c + 1); (r - 1, c); (r, c - 1)] ∧
  @GetNeighbour EightConnect (r, c)
    = [(r - 1, c - 1); (r - 1, c); (r - 1, c + 1);
       (r, c - 1); (r, c + 1);
       (r + 1, c - 1); (r + 1, c); (r + 1, c + 1)] ∧
  (∀ q, q ∈ @GetNeighbour EightConnect (r, c) ↔
        ∃ dr dc, -1 ≤ dr ≤ 1 ∧ -1 ≤ dc ≤ 1 ∧ ¬ (dr = 0 ∧ dc = 0) ∧ q = (r + dr, c + dc)) ∧
  NoDup (@GetNeighbour FourConnect (r, c)) ∧
  NoDup (@GetNeighbour EightConnect (r, c)).
Proof.
  intros Hr Hc. split_and!.
  - by apply FourConnect_exact.
  - by apply EightConnect_exact.
  - intros q. by apply EightConnect_elem.
  - rewrite FourConnect_exact by done.
    repeat (apply NoDup_cons; split;
      [rewrite ?elem_of_cons, elem_of_nil; intros H; destruct_or!; try done;
       simplify_eq; lia |]).
    apply NoDup_nil_2.
  - rewrite EightConnect_exact by done.
    repeat (apply NoDup_cons; split;
      [rewrite ?elem_of_cons, elem_of_nil; intros H; destruct_or!; try done;
       simplify_eq; lia |]).
    apply NoDup_nil_2.
Qed.

Lemma neighbour_generators_exact_witness :
  @GetNeighbour FourConnect (0, 0) = [(1, 0); (0, 1); (-1, 0); (0, -1)] ∧
  length (@GetNeighbour EightConnect (0, 0)) = 8%nat.
Proof.
  destruct (neighbour_generators_exact 0 0) as (H4 & H8 & _).
  - unfold Int.min_int, Int.max_int. lia.
  - unfold Int.min_int, Int.max_int. lia.
  - split; [exact H4 | by rewrite H8].
Defined.

(** ** The label grid (C7) *)

Lemma IsPixelPosValid_spec size pos :
  IsPixelPosValid size pos = true ↔ in_grid size pos.
Proof.
  unfold IsPixelPosValid, in_grid.
  rewrite !andb_true_iff, !bool_decide_eq_true. lia.
Qed.

Lemma filter_insert_free (l : list Z) (i : nat) (v : Z) :
  l !! i = Some Quick2DSizeT.NOLABEL → v ≠ Quick2DSizeT.NOLABEL →
  length (filter (λ x, x = Quick2DSizeT.NOLABEL) l)
  = S (length (filter (λ x, x = Quick2DSizeT.NOLABEL) (<[i:=v]> l))).
Proof.
  revert i. induction l as [|x l IH]; intros i Hi Hv; [done |].
  destruct i as [|i].
  - injection Hi as ->. change (<[0%nat:=v]> (Quick2DSizeT.NOLABEL :: l)) with (v :: l).
    rewrite filter_cons_True by done. by rewrite filter_cons_False.
  - change (<[S i:=v]> (x :: l)) with (x :: <[i:=v]> l).
    change ((x :: l) !! S i) with (l !! i) in Hi.
    destruct (decide (x = Quick2DSizeT.NOLABEL)).
    + rewrite !filter_cons_True by done. simpl. f_equal. by apply IH.
    + rewrite !filter_cons_False by done. by apply IH.
Qed.

Section Grid.
Variable size : IntPair.
Hypothesis Hrows : 1 ≤ size.1.
Hypothesis Hcols : 1 ≤ size.2.
Hypothesis Hfit : size.1 * size.2 ≤ Int.max_int.

Lemma slot_in_grid L p :
  wf size L → in_grid size p →
  Quick2DSizeT.slot L p.1 p.2 = p.1 * size.2 + p.2 ∧
  0 ≤ p.1 * size.2 + p.2 < size.1 * size.2.
Proof using Hrows Hcols Hfit.
  intros [HL _] [Hr Hc]. unfold Quick2DSizeT.slot. rewrite HL.
  assert (0 ≤ p.1 * size.2 ∧ p.1 * size.2 + size.2 ≤ size.1 * size.2) by nia.
  unfold Int.max_int in Hfit.
  rewrite mul_exact, add_exact;
    unfold Int.in_range, Int.min_int, Int.max_int; lia.
Qed.

Lemma slot_inj p q :
  in_grid size p → in_grid size q →
  p.1 * size.2 + p.2 = q.1 * size.2 + q.2 → p = q.
Proof.
  destruct p as [r c], q as [r' c']. unfold in_grid. simpl.
  intros Hp Hq Heq. assert (r = r') by nia. subst. f_equal. lia.
Qed.

Lemma lab_lookup L p :
  wf size L → in_grid size p →
  Quick2DSizeT.data L !! Z.to_nat (p.1 * size.2 + p.2) = Some (lab L p).
Proof using Hrows Hcols Hfit.
  intros HL Hp. destruct (slot_in_grid L p HL Hp) as [Hs Hr].
  unfold lab, Quick2DSizeT.get. rewrite Hs.
  rewrite bool_decide_eq_false_2 by lia.
  destruct (lookup_lt_is_Some_2 (Quick2DSizeT.data L)
              (Z.to_nat (p.1 * size.2 + p.2))) as [x Hx].
  - destruct HL as [_ ->]. lia.
  - by rewrite Hx.
Qed.

Lemma relabel_in_grid L p v :
  wf size L → in_grid size p →
  relabel L p v
  = {| Quick2DSizeT.cols := Quick2DSizeT.cols L;
       Quick2DSizeT.data :=
         <[Z.to_nat (p.1 * size.2 + p.2) := v]> (Quick2DSizeT.data L) |}.
Proof using Hrows Hcols Hfit.
  intros HL Hp. destruct (slot_in_grid L p HL Hp) as [Hs Hr].
  unfold relabel, Quick2DSizeT.set. rewrite Hs.
  by rewrite bool_decide_eq_false_2 by lia.
Qed.

Lemma wf_relabel L p v : wf size L → wf size (relabel L p v).
Proof.
  intros [Hc Hl]. unfold relabel, Quick2DSizeT.set.
  case_bool_decide; [done |]. split; [done |]. simpl. by rewrite length_insert.
Qed.

Lemma lab_relabel_eq L p v :
  wf size L → in_grid size p → lab (relabel L p v) p = v.
Proof using Hrows Hcols Hfit.
  intros HL Hp. destruct (slot_in_grid L p HL Hp) as [Hs Hr].
  pose proof (lab_lookup _ p (wf_relabel L p v HL) Hp) as Hlk.
  rewrite (relabel_in_grid L p v HL Hp) in *. simpl in Hlk.
  rewrite list_lookup_insert_eq in Hlk; first congruence.
  destruct HL as [_ ->]. lia.
Qed.

Lemma lab_relabel_ne L p q v :
  wf size L → in_grid size p → in_grid size q → p ≠ q →
  lab (relabel L p v) q = lab L q.
Proof using Hrows Hcols Hfit.
  intros HL Hp Hq Hne.
  destruct (slot_in_grid L p HL Hp) as [Hs Hr].
  destruct (slot_in_grid L q HL Hq) as [Hs' Hr'].
  pose proof (lab_lookup _ q (wf_relabel L p v HL) Hq) as Hlk.
  rewrite (relabel_in_grid L p v HL Hp) in *. simpl in Hlk.
  rewrite list_lookup_insert_ne in Hlk.
  - rewrite lab_lookup in Hlk by done. congruence.
  - intros Heq. apply Hne, slot_inj; [done | done | lia].
Qed.

Lemma free_relabel L p v :
  wf size L → in_grid size p →
  lab L p = Quick2DSizeT.NOLABEL → v ≠ Quick2DSizeT.NOLABEL →
  free L = S (free (relabel L p v)).
Proof using Hrows Hcols Hfit.
  intros HL Hp Hlab Hv. destruct (slot_in_grid L p HL Hp) as [Hs Hr].
  pose proof (lab_lookup L p HL Hp) as Hlk. rewrite Hlab in Hlk.
  unfold free. rewrite relabel_in_grid by done. simpl.
  by apply filter_insert_free.
Qed.

Lemma free_le L : wf size L → (free L ≤ Z.to_nat (size.1 * size.2))%nat.
Proof. intros [_ <-]. apply length_filter. Qed.

(** The constructor on a valid size. *)
Lemma new_valid :
  Quick2DSizeT.new size.1 size.2
  = Ok {| Quick2DSizeT.cols := size.2;
          Quick2DSizeT.data :=
            replicate (Z.to_nat (size.1 * size.2)) Quick2DSizeT.NOLABEL |}.
Proof using Hrows Hcols Hfit.
  unfold Quick2DSizeT.new.
  rewrite mul_exact by (unfold Int.in_range, Int.min_int; nia).
  rewrite bool_decide_eq_false_2 by nia. done.
Qed.

Lemma new_wf :
  wf size {| Quick2DSizeT.cols := size.2;
             Quick2DSizeT.data :=
               replicate (Z.to_nat (size.1 * size.2)) Quick2DSizeT.NOLABEL |}.
Proof. split; [done |]. simpl. by rewrite length_replicate. Qed.

Lemma new_lab p :
  in_grid size p →
  lab {| Quick2DSizeT.cols := size.2;
         Quick2DSizeT.data :=
           replicate (Z.to_nat (size.1 * size.2)) Quick2DSizeT.NOLABEL |} p
  = Quick2DSizeT.NOLABEL.
Proof using Hrows Hcols Hfit.
  intros Hp. pose proof (lab_lookup _ p new_wf Hp) as Hlk. simpl in Hlk.
  apply lookup_replicate in Hlk. by destruct Hlk as [-> _].
Qed.
End Grid.

(** The claim as the specification states it fails: the constructor checks
    nothing, and a grid of 0 rows is built without an error. *)
Lemma constructor_checks_no_dimension :
  ¬ (∀ rows cols : Z, rows < 1 ∨ cols < 1 →
       Quick2DSizeT.new rows cols = Throw InvalidDimension).
Proof. intros H. specialize (H 0 5). discriminate H. lia. Qed.

(** C7 (amended).  The constructor never fails with InvalidDimension,
    whatever the dimensions; for [rows >= 1] and [cols >= 1] whose product
    is representable it builds a grid of exactly [rows * cols] slots, every
    one holding NOLABEL. *)
Theorem constructor_allocates (rows cols : Z) :
  Quick2DSizeT.new rows cols ≠ Throw InvalidDimension ∧
  (1 ≤ rows → 1 ≤ cols → rows * cols ≤ Int.max_int →
   ∃ L, Quick2DSizeT.new rows cols = Ok L ∧
        Quick2DSizeT.cols L = cols ∧
        length (Quick2DSizeT.data L) = Z.to_nat (rows * cols) ∧
        (∀ x, x ∈ Quick2DSizeT.data L → x = Quick2DSizeT.NOLABEL) ∧
        (∀ p, in_grid (rows, cols) p → lab L p = Quick2DSizeT.NOLABEL)).
Proof.
  split.
  - unfold Quick2DSizeT.new. by case_bool_decide.
  - intros Hr Hc Hfit. eexists. split; [by apply (new_valid (rows, cols)) |].
    split_and!.
    + done.
    + apply (new_wf (rows, cols)).
    + intros x Hx. simpl in Hx. by apply elem_of_replicate in Hx as [-> _].
    + intros p Hp. by apply (new_lab (rows, cols)).
Qed.

Lemma constructor_allocates_witness :
  ∃ L, Quick2DSizeT.new 2 3 = Ok L ∧
       Quick2DSizeT.data L = replicate 6 Quick2DSizeT.NOLABEL.
Proof.
  destruct (constructor_allocates 2 3) as [_ H].
  destruct H as (L & HL & _ & _ & _ & _);
    [lia | lia | unfold Int.max_int; lia |].
  exists L. split; [exact HL |].
  vm_compute in HL. injection HL as <-. reflexivity.
Defined.

(** ** The labelling algorithm *)

Lemma foldM_app {A B : Type} (f : A → B → outcome A) (a : A) (l1 l2 : list B) :
  foldM f a (l1 ++ l2) = a' ← foldM f a l1; foldM f a' l2.
Proof.
  revert a. induction l1 as [|x l1 IH]; intros a; [done |].
  simpl. destruct (f a x); simpl; [apply IH | done | done].
Qed.

Lemma foldl_pointwise {A B : Type} (f g : A → B → A) (a : A) (l : list B) :
  (∀ a x, f a x = g a x) → foldl f a l = foldl g a l.
Proof.
  intros Hfg. revert a. induction l as [|x l IH]; intros a; [done |].
  simpl. by rewrite Hfg, IH.
Qed.

Lemma elem_of_scan_order size p : p ∈ scan_order size ↔ in_grid size p.
Proof.
  unfold scan_order, in_grid. rewrite list_elem_of_bind. split.
  - intros (i & Hp & Hi). apply list_elem_of_fmap in Hp as (j & -> & Hj).
    apply elem_of_seqZ in Hi, Hj. simpl. lia.
  - intros [Hr Hc]. exists p.1. split.
    + apply list_elem_of_fmap. exists p.2. split; [by destruct p |].
      apply elem_of_seqZ. lia.
    + apply elem_of_seqZ. lia.
Qed.

Lemma length_scan_order size :
  0 ≤ size.1 → 0 ≤ size.2 →
  Z.of_nat (length (scan_order size)) = size.1 * size.2.
Proof.
  intros Hr Hc. unfold scan_order.
  assert (∀ l : list Z,
    Z.of_nat (length (i ← l; (λ j, (i, j)) <$> seqZ 0 size.2))
    = Z.of_nat (length l) * size.2) as Hlen.
  { induction l as [|x l IH]; [done |].
    change (x :: l) with ([x] ++ l). rewrite bind_app, length_app.
    rewrite Nat2Z.inj_add, IH. simpl. rewrite app_nil_r, length_fmap, length_seqZ.
    lia. }
  rewrite Hlen, length_seqZ. lia.
Qed.

Lemma foldM_scan_order {A : Type} (f : Z → A → Z → outcome A) (a : A) size :
  foldM (λ a i, foldM (f i) a (seqZ 0 size.2)) a (seqZ 0 size.1)
  = foldM (λ a p, f p.1 a p.2) a (scan_order size).
Proof.
  unfold scan_order. generalize (seqZ 0 size.1) as rws. generalize (seqZ 0 size.2) as cls.
  intros cls rws. revert a. induction rws as [|i rws IH]; intros a; [done |].
  rewrite bind_cons, foldM_app.
  change (foldM ?g a (i :: rws)) with (a' ← foldM (f i) a cls; foldM g a' rws).
  assert (∀ a, foldM (f i) a cls = foldM (λ a p, f p.1 a p.2) a ((λ j, (i, j)) <$> cls)) as ->.
  { clear. induction cls as [|j cls IH]; intros a; [done |]. simpl.
    destruct (f i a j); simpl; [apply IH | done | done]. }
  destruct (foldM _ a _); simpl; [apply IH | done | done].
Qed.

Lemma foldl_scan_order {A : Type} (f : Z → A → Z → A) (a : A) size :
  foldl (λ a i, foldl (f i) a (seqZ 0 size.2)) a (seqZ 0 size.1)
  = foldl (λ a p, f p.1 a p.2) a (scan_order size).
Proof.
  unfold scan_order. generalize (seqZ 0 size.1) as rws. generalize (seqZ 0 size.2) as cls.
  intros cls rws. revert a. induction rws as [|i rws IH]; intros a; [done |].
  rewrite bind_cons, foldl_app. simpl. rewrite IH. f_equal.
  clear. revert a. induction cls as [|j cls IH]; intros a; [done |]. simpl. apply IH.
Qed.

Lemma member_replicate n k x : ¬ member (replicate n ∅) k x.
Proof.
  intros (cc & Hcc & Hx). apply lookup_replicate in Hcc as [-> _].
  by apply not_elem_of_empty in Hx.
Qed.

Lemma member_alter (result : result_type) (i k : nat) (p x : IntPair) :
  (i < length result)%nat →
  member (alter (λ cc : cc_result_type, {[ p ]} ∪ cc) i result) k x
  ↔ member result k x ∨ (k = i ∧ x = p).
Proof.
  intros Hi. unfold member. destruct (decide (k = i)) as [->|Hne].
  - destruct (lookup_lt_is_Some_2 result i Hi) as [cc0 Hcc0]. split.
    + intros (cc & Hcc & Hx). rewrite list_lookup_alter_eq, Hcc0 in Hcc.
      injection Hcc as <-.
      apply elem_of_union in Hx as [->%elem_of_singleton|Hx]; [by right |].
      left. by exists cc0.
    + intros Hx. exists ({[ p ]} ∪ cc0). rewrite list_lookup_alter_eq, Hcc0.
      split; [done |]. apply elem_of_union.
      destruct Hx as [(cc & Hcc & Hx)|[_ ->]].
      * right. congruence.
      * left. by apply elem_of_singleton.
  - assert (i ≠ k) as Hne' by done. split.
    + intros (cc & Hcc & Hx). rewrite list_lookup_alter_ne in Hcc by done.
      left. by exists cc.
    + intros [(cc & Hcc & Hx)|[? _]]; [|done].
      exists cc. by rewrite list_lookup_alter_ne.
Qed.

Section Labelling.
Context {ImgType ImgDT : Type}.
Context {acc : Access ImgType ImgDT}.
Context {bp : BinaryPredicate ImgDT}.
Context {connect : Connectivity}.

Variable img : ImgType.
Variable size : IntPair.

Lemma path_source p q : path img size p q → foreground img size p.
Proof. by destruct 1. Qed.

Lemma path_target p q : path img size p q → foreground img size q.
Proof. by induction 1. Qed.

Lemma path_trans p q r : path img size p q → path img size q r → path img size p r.
Proof. induction 1; [done |]. intros. eapply path_step; eauto. Qed.

Lemma path_edge p q : foreground img size p → foreground img size q → q ∈ GetNeighbour p → path img size p q.
Proof. intros. eapply path_step; [done | done |]. by apply path_refl. Qed.

Lemma grow_refl c L : wf size L → grow img size c [] L L.
Proof.
  intros HL. split_and!; [done | apply NoDup_nil_2 | | | simpl; lia].
  - intros p Hp. by apply elem_of_nil in Hp.
  - intros p _. by rewrite decide_False by apply not_elem_of_nil.
Qed.

Lemma grow_trans c a1 a2 L L1 L2 :
  c ≠ Quick2DSizeT.NOLABEL →
  grow img size c a1 L L1 → grow img size c a2 L1 L2 → grow img size c (a1 ++ a2) L L2.
Proof.
  intros Hc (Hwf1 & Hnd1 & Hin1 & Hlab1 & Hfree1) (Hwf2 & Hnd2 & Hin2 & Hlab2 & Hfree2).
  assert (∀ p, p ∈ a1 → p ∉ a2) as Hdisj.
  { intros p Hp1 Hp2. destruct (Hin1 p Hp1) as [[Hg _] _].
    destruct (Hin2 p Hp2) as [_ HN]. rewrite Hlab1 in HN by done.
    by rewrite decide_True in HN. }
  split_and!.
  - done.
  - by apply NoDup_app.
  - intros p [Hp|Hp]%elem_of_app; [by apply Hin1 |].
    destruct (Hin2 p Hp) as [Hfg HN]. split; [done |].
    rewrite Hlab1 in HN by apply Hfg. by case_decide.
  - intros p Hp. rewrite Hlab2, Hlab1 by done.
    repeat case_decide; try done; exfalso; rewrite elem_of_app in *; tauto.
  - rewrite length_app. lia.
Qed.

Lemma grow_keeps c added L L' : grow img size c added L L' → keeps size L L'.
Proof.
  intros (_ & _ & Hin & Hlab & _) p Hp Hne. rewrite Hlab by done.
  case_decide as Hadd; [|done]. by destruct (Hin p Hadd).
Qed.

Lemma grow_labelled c added L L' p :
  grow img size c added L L' → in_grid size p →
  lab L p = Quick2DSizeT.NOLABEL → lab L' p ≠ Quick2DSizeT.NOLABEL →
  p ∈ added ∧ lab L' p = c.
Proof.
  intros (_ & _ & Hin & Hlab & _) Hp HN Hne. rewrite Hlab in Hne |- * by done.
  by case_decide.
Qed.

Section Valid.
Hypothesis Hrows : 1 ≤ size.1.
Hypothesis Hcols : 1 ≤ size.2.
Hypothesis Hfit : size.1 * size.2 ≤ Int.max_int.

Lemma grow_one c L p :
  wf size L → foreground img size p → lab L p = Quick2DSizeT.NOLABEL →
  c ≠ Quick2DSizeT.NOLABEL → grow img size c [p] L (relabel L p c).
Proof using Hrows Hcols Hfit.
  intros HL Hfg HN Hc. split_and!.
  - by apply wf_relabel.
  - apply NoDup_singleton.
  - by intros q ->%list_elem_of_singleton.
  - intros q Hq. case_decide as Hin.
    + apply list_elem_of_singleton in Hin as ->.
      apply (lab_relabel_eq size Hrows Hcols Hfit); [done | apply Hfg].
    + apply (lab_relabel_ne size Hrows Hcols Hfit); [done | apply Hfg | done |].
      intros ->. apply Hin. by apply list_elem_of_singleton.
  - simpl. rewrite (free_relabel size Hrows Hcols Hfit L p c); [lia | done | apply Hfg | done ..].
Qed.

Hypothesis Hsup : supported bp.

Lemma extends_refl st : wf size (labelStorage st) → extends img size [] st st.
Proof.
  intros HL. split_and!; [by apply grow_refl | done | |]; by rewrite app_nil_r.
Qed.

Lemma extends_trans a1 a2 st st1 st2 :
  currentLabel st ≠ Quick2DSizeT.NOLABEL →
  extends img size a1 st st1 → extends img size a2 st1 st2 → extends img size (a1 ++ a2) st st2.
Proof.
  intros Hc (Hg1 & Hc1 & Hi1 & Hp1) (Hg2 & Hc2 & Hi2 & Hp2).
  rewrite Hc1 in Hg2. split_and!.
  - by eapply grow_trans.
  - congruence.
  - by rewrite Hi2, Hi1, app_assoc.
  - by rewrite Hp2, Hp1, app_assoc.
Qed.

Lemma visit_neighbour_spec st pos :
  wf size (labelStorage st) → currentLabel st ≠ Quick2DSizeT.NOLABEL →
  ∃ st' added,
    visit_neighbour img size st pos = Ok st' ∧ extends img size added st st' ∧
    (∀ p, p ∈ added → p = pos) ∧
    (foreground img size pos → lab (labelStorage st') pos ≠ Quick2DSizeT.NOLABEL).
Proof using Hrows Hcols Hfit Hsup.
  intros HL Hc. unfold visit_neighbour.
  destruct (IsPixelPosValid size pos) eqn:Hvalid.
  - apply IsPixelPosValid_spec in Hvalid.
    destruct (Hsup (access img pos.1 pos.2)) as [b Hb]. rewrite Hb. simpl.
    destruct b; simpl.
    + fold (lab (labelStorage st) pos). case_bool_decide as HN.
      * eexists _, [pos]. split; [reflexivity |]. simpl. split_and!.
        -- split_and!; [|done..]. simpl. by apply grow_one.
        -- by intros p ->%list_elem_of_singleton.
        -- intros _. fold (relabel (labelStorage st) pos (currentLabel st)).
           by rewrite (lab_relabel_eq size Hrows Hcols Hfit).
      * exists st, []. split_and!; [done | by apply extends_refl | | done].
        by intros p ?%elem_of_nil.
    + exists st, []. split_and!; [done | by apply extends_refl | |].
      * by intros p ?%elem_of_nil.
      * intros [_ Hfg]. congruence.
  - exists st, []. split_and!; [done | by apply extends_refl | |].
    + by intros p ?%elem_of_nil.
    + intros [Hg _]. apply IsPixelPosValid_spec in Hg. congruence.
Qed.

Lemma visit_all_spec st l :
  wf size (labelStorage st) → currentLabel st ≠ Quick2DSizeT.NOLABEL →
  ∃ st' added,
    foldM (visit_neighbour img size) st l = Ok st' ∧ extends img size added st st' ∧
    (∀ p, p ∈ added → p ∈ l) ∧
    (∀ n, n ∈ l → foreground img size n →
          lab (labelStorage st') n ≠ Quick2DSizeT.NOLABEL).
Proof using Hrows Hcols Hfit Hsup.
  revert st. induction l as [|pos l IH]; intros st HL Hc.
  - exists st, []. split_and!; [done | by apply extends_refl | done |].
    by intros n ?%elem_of_nil.
  - destruct (visit_neighbour_spec st pos HL Hc) as (st1 & a1 & Hrun1 & Hext1 & Hin1 & Hcov1).
    assert (wf size (labelStorage st1)) as HL1 by apply Hext1.
    assert (currentLabel st1 = currentLabel st) as Hc1 by apply Hext1.
    destruct (IH st1) as (st2 & a2 & Hrun2 & Hext2 & Hin2 & Hcov2);
      [done | congruence |].
    exists st2, (a1 ++ a2). split_and!.
    + simpl. rewrite Hrun1. simpl. exact Hrun2.
    + by eapply extends_trans.
    + intros p [Hp|Hp]%elem_of_app.
      * rewrite (Hin1 p Hp). apply list_elem_of_here.
      * apply list_elem_of_further. by apply Hin2.
    + intros n [->|Hn]%elem_of_cons Hfg; [|by apply Hcov2].
      specialize (Hcov1 Hfg).
      destruct Hext2 as (Hg2 & _). rewrite (grow_keeps _ _ _ _ Hg2); [done | apply Hfg | done].
Qed.

(** The flood fill from the coordinates in the queue: it empties the
    queue; what it labels is reachable from a coordinate that was in the
    queue; and once it is done, every foreground neighbour of a
    coordinate that went through the queue is labelled. *)
Lemma drain_queue_spec fuel st :
  wf size (labelStorage st) → currentLabel st ≠ Quick2DSizeT.NOLABEL →
  (∀ p, p ∈ Queue.items (myQueue st) → foreground img size p) →
  (free (labelStorage st) + length (Queue.items (myQueue st)) ≤ fuel)%nat →
  ∃ st' added,
    drain_queue img size fuel st = Ok st' ∧
    grow img size (currentLabel st) added (labelStorage st) (labelStorage st') ∧
    currentLabel st' = currentLabel st ∧
    Queue.items (myQueue st') = [] ∧
    Queue.pushed (myQueue st') = Queue.pushed (myQueue st) ++ added ∧
    (∀ p, p ∈ added → ∃ q, q ∈ Queue.items (myQueue st) ∧ path img size q p) ∧
    (∀ p n, p ∈ Queue.items (myQueue st) ++ added →
            n ∈ GetNeighbour p → foreground img size n →
            lab (labelStorage st') n ≠ Quick2DSizeT.NOLABEL).
Proof using Hrows Hcols Hfit Hsup.
  revert st. induction fuel as [|fuel IH]; intros st HL Hc Hq Hfuel.
  - destruct (Queue.items (myQueue st)) as [|front rest] eqn:Hitems;
      [|simpl in Hfuel; lia].
    exists st, []. simpl. unfold Queue.front. rewrite Hitems. simpl.
    split_and!; [done | by apply grow_refl | done | done | by rewrite app_nil_r | |].
    + by intros p ?%elem_of_nil.
    + by intros p n ?%elem_of_nil.
  - destruct (Queue.items (myQueue st)) as [|front rest] eqn:Hitems.
    { exists st, []. simpl. unfold Queue.front. rewrite Hitems. simpl.
      split_and!; [done | by apply grow_refl | done | done | by rewrite app_nil_r | |].
      + by intros p ?%elem_of_nil.
      + by intros p n ?%elem_of_nil. }
    simpl. unfold Queue.front. rewrite Hitems. simpl.
    set (popped := {| labelStorage := labelStorage st;
                      currentLabel := currentLabel st;
                      myQueue := Queue.pop (myQueue st) |}).
    destruct (visit_all_spec popped (GetNeighbour front) HL Hc)
      as (st1 & a1 & Hrun1 & (Hg1 & Hc1 & Hi1 & Hp1) & Hin1 & Hcov1).
    simpl in Hg1, Hc1, Hi1, Hp1. rewrite Hitems in Hi1. simpl in Hi1.
    rewrite Hrun1. simpl.
    assert (foreground img size front) as Hfront by (apply Hq; left).
    destruct (IH st1) as (st2 & a2 & Hrun2 & Hg2 & Hc2 & Hi2 & Hp2 & Hreach2 & Hcov2).
    { apply Hg1. }
    { congruence. }
    { intros p. rewrite Hi1. intros [Hp|Hp]%elem_of_app.
      - apply Hq. by right.
      - destruct Hg1 as (_ & _ & Hin & _). by apply Hin. }
    { rewrite Hi1, length_app. destruct Hg1 as (_ & _ & _ & _ & Hfree).
      simpl in Hfuel. lia. }
    rewrite Hc1 in Hg2.
    exists st2, (a1 ++ a2). split_and!.
    + done.
    + by eapply grow_trans.
    + congruence.
    + done.
    + by rewrite Hp2, Hp1, app_assoc.
    + intros p [Hp|Hp]%elem_of_app.
      * exists front. split; [left |].
        destruct Hg1 as (_ & _ & Hin & _). apply path_edge; [done | by apply Hin | by apply Hin1].
      * destruct (Hreach2 p Hp) as (q & Hq2 & Hpath). rewrite Hi1 in Hq2.
        apply elem_of_app in Hq2 as [Hq2|Hq2].
        -- exists q. split; [by right | done].
        -- exists front. split; [left |]. eapply path_trans; [|done].
           destruct Hg1 as (_ & _ & Hin & _).
           apply path_edge; [done | by apply Hin | by apply Hin1].
    + intros p n Hp Hn Hfg.
      simpl in Hp. apply elem_of_cons in Hp as [->|Hp].
      * rewrite (grow_keeps _ _ _ _ Hg2); [by apply Hcov1 | apply Hfg | by apply Hcov1].
      * apply (Hcov2 p n); [|done..]. rewrite Hi1.
        rewrite <- app_assoc. done.
Qed.

Lemma drain_queue_empty fuel st :
  Queue.items (myQueue st) = [] → drain_queue img size fuel st = Ok st.
Proof. intros Hq. destruct fuel; simpl; unfold Queue.front; by rewrite Hq. Qed.

Lemma scan_inv_skip done seeds st p :
  scan_inv img size done seeds st →
  (foreground img size p → lab (labelStorage st) p ≠ Quick2DSizeT.NOLABEL) →
  scan_inv img size (done ++ [p]) seeds st.
Proof.
  intros [] Hp. split; try done.
  - rewrite length_app. simpl. lia.
  - intros q [Hq| ->%list_elem_of_singleton]%elem_of_app; [by apply inv_done0 | done].
Qed.

Lemma scan_inv_seed done seeds st p added L2 q2 :
  scan_inv img size done seeds st →
  Z.of_nat (length done) < size.1 * size.2 →
  foreground img size p → lab (labelStorage st) p = Quick2DSizeT.NOLABEL →
  grow img size (currentLabel st) (p :: added) (labelStorage st) L2 →
  Queue.items q2 = [] →
  Queue.pushed q2 = Queue.pushed (myQueue st) ++ p :: added →
  (∀ x, x ∈ added → path img size p x) →
  (∀ x n, x ∈ p :: added → n ∈ GetNeighbour x → foreground img size n →
          lab L2 n ≠ Quick2DSizeT.NOLABEL) →
  scan_inv img size (done ++ [p]) (seeds ++ [p])
    {| labelStorage := L2;
       currentLabel := Int.add (currentLabel st) 1;
       myQueue := q2 |}.
Proof using Hrows Hcols Hfit.
  intros [] Hlt Hfg HN Hg Hq2 Hp2 Hreach Hfront.
  pose proof Hg as (Hwf2 & Hnd & Hin & Hlab2 & _).
  pose proof NOLABEL_lt_labelStart as Hstart.
  assert (Int.add (currentLabel st) 1 = currentLabel st + 1) as Hnext.
  { apply add_exact. rewrite inv_label0, labelStart_eq.
    unfold Int.in_range, Int.max_int, Int.min_int in *. lia. }
  assert (∀ x, in_grid size x → lab (labelStorage st) x ≠ currentLabel st) as Hold.
  { intros x Hx Heq. destruct (inv_sound0 x Hx) as [_ ?]; [|lia].
    rewrite Heq, inv_label0. lia. }
  split; simpl.
  - done.
  - done.
  - rewrite Hnext, inv_label0, length_app. simpl. lia.
  - rewrite !length_app. simpl. lia.
  - intros x Hx. rewrite Hlab2 by done. case_decide as Hadd.
    + intros _. split; [by apply Hin |]. rewrite Hnext, inv_label0. lia.
    + intros Hne. destruct (inv_sound0 x Hx Hne). split; [done |]. lia.
  - intros x Hx Hxfg. rewrite Hlab2 by apply Hxfg. case_decide as Hadd.
    + rewrite inv_label0. lia.
    + apply elem_of_app in Hx as [Hx| ->%list_elem_of_singleton].
      * by apply inv_done0.
      * exfalso. apply Hadd. left.
  - intros k s Hk. apply lookup_app_Some in Hk as [Hk|[Hlen Hk]].
    + destruct (inv_seed0 k s Hk) as (Hsfg & Hslab & Hspath).
      apply lookup_lt_Some in Hk as Hklt.
      split_and!; [done | |].
      * rewrite (grow_keeps _ _ _ _ Hg); [done | apply Hsfg |]. rewrite Hslab. lia.
      * intros x Hx. rewrite Hlab2 by done. case_decide; [|by apply Hspath].
        rewrite inv_label0. lia.
    + apply list_lookup_singleton_Some in Hk as [Hk ->].
      assert (k = length seeds) as -> by lia.
      rewrite <- inv_label0. split_and!; [done | |].
      * rewrite Hlab2 by apply Hfg. rewrite decide_True; [done | left].
      * intros x Hx. rewrite Hlab2 by done. case_decide as Hadd.
        -- intros _. apply elem_of_cons in Hadd as [->|Hadd];
             [by apply path_refl | by apply Hreach].
        -- intros Heq. by destruct (Hold x Hx).
  - intros Hsym x n Hx Hne Hn Hnfg. assert (in_grid size n) as Hng by apply Hnfg.
    rewrite (Hlab2 x), (Hlab2 n) in * by done.
    destruct (decide (x ∈ p :: added)) as [Hxa|Hxa];
      destruct (decide (n ∈ p :: added)) as [Hna|Hna]; try done.
    + exfalso. pose proof (Hfront x n Hxa Hn Hnfg) as Hnl.
      rewrite Hlab2, decide_False in Hnl by done.
      pose proof (inv_closed0 Hsym n x Hng Hnl (Hsym x n Hx Hng Hn)) as Hback.
      destruct (Hin x Hxa) as [Hxfg HxN]. rewrite (Hback Hxfg) in HxN. done.
    + exfalso. pose proof (inv_closed0 Hsym x n Hx Hne Hn Hnfg) as Hfwd.
      destruct (Hin n Hna) as [_ HnN]. congruence.
    + by apply inv_closed0.
  - rewrite Hp2. apply NoDup_app. split_and!; [done | | done].
    intros x Hx Hxa. apply inv_pushed0 in Hx as [_ Hx].
    by destruct (Hin x Hxa).
  - intros x. rewrite Hp2, elem_of_app, inv_pushed0. split.
    + intros [[Hx Hne]|Hxa].
      * split; [done |]. by rewrite (grow_keeps _ _ _ _ Hg).
      * destruct (Hin x Hxa) as [[Hx _] _]. split; [done |].
        rewrite Hlab2, decide_True by done. rewrite inv_label0. lia.
    + intros [Hx Hne]. rewrite Hlab2 in Hne by done.
      case_decide; [by right | by left].
Qed.

Lemma keeps_refl L : keeps size L L.
Proof. by intros p. Qed.

Lemma keeps_trans L1 L2 L3 : keeps size L1 L2 → keeps size L2 L3 → keeps size L1 L3.
Proof.
  intros H12 H23 p Hp Hne. rewrite H23, H12; [done .. |]. by rewrite H12.
Qed.

(** One step of the marking scan. *)
Lemma scan_pixel_spec fuel done seeds st p :
  scan_inv img size done seeds st → in_grid size p →
  Z.of_nat (length done) < size.1 * size.2 →
  (Z.to_nat (size.1 * size.2) ≤ fuel)%nat →
  ∃ st', scan_pixel img size fuel p.1 st p.2 = Ok st' ∧
         scan_inv img size (done ++ [p]) (seeds ++ if is_seed img st p then [p] else []) st' ∧
         keeps size (labelStorage st) (labelStorage st').
Proof using Hrows Hcols Hfit Hsup.
  intros Hinv Hp Hlt Hfuel. unfold scan_pixel, is_seed.
  destruct (Hsup (access img p.1 p.2)) as [b Hb]. rewrite Hb. simpl.
  destruct b; simpl.
  2:{ exists st. rewrite app_nil_r. split_and!; [done | | apply keeps_refl].
      apply scan_inv_skip; [done |]. intros [_ Hfg]. congruence. }
  assert (foreground img size p) as Hfg by done.
  fold (lab (labelStorage st) p). case_bool_decide as HN.
  2:{ rewrite drain_queue_empty by apply Hinv. simpl. exists st.
      rewrite app_nil_r. split_and!; [done | | apply keeps_refl].
      by apply scan_inv_skip. }
  fold (relabel (labelStorage st) p (currentLabel st)).
  replace (p.1, p.2) with p by by destruct p.
  set (st1 := {| labelStorage := relabel (labelStorage st) p (currentLabel st);
                 currentLabel := currentLabel st;
                 myQueue := Queue.push (myQueue st) p |}).
  pose proof NOLABEL_lt_labelStart as Hstart.
  assert (currentLabel st ≠ Quick2DSizeT.NOLABEL) as Hc.
  { rewrite (inv_label _ _ _ _ _ Hinv). lia. }
  pose proof (grow_one (currentLabel st) (labelStorage st) p
                (inv_wf _ _ _ _ _ Hinv) Hfg HN Hc) as Hg1.
  assert (Queue.items (myQueue st1) = [p]) as Hitems.
  { simpl. by rewrite (inv_queue _ _ _ _ _ Hinv). }
  destruct (drain_queue_spec fuel st1)
    as (st2 & added & Hrun & Hg2 & Hc2 & Hi2 & Hp2 & Hreach & Hfront).
  { apply Hg1. }
  { done. }
  { rewrite Hitems. by intros q ->%list_elem_of_singleton. }
  { rewrite Hitems. simpl. destruct Hg1 as (_ & _ & _ & _ & Hfree). simpl in Hfree.
    pose proof (free_le size (labelStorage st) (inv_wf _ _ _ _ _ Hinv)). lia. }
  rewrite Hrun. simpl. eexists. split; [reflexivity |].
  simpl in Hg2, Hc2, Hp2. rewrite Hc2.
  pose proof (grow_trans _ _ _ _ _ _ Hc Hg1 Hg2) as Hg. simpl in Hg.
  split; [|by eapply grow_keeps].
  apply scan_inv_seed with (added := added); try done.
  - by rewrite Hp2, <- app_assoc.
  - intros x Hx. destruct (Hreach x Hx) as (q & Hq & Hpath).
    rewrite Hitems in Hq. by apply list_elem_of_singleton in Hq as ->.
  - intros x n Hx. apply Hfront. by rewrite Hitems.
Qed.

(** The whole marking scan, as one loop over the coordinates [l]. *)
Lemma scan_all_spec fuel l done seeds st :
  scan_inv img size done seeds st → (∀ p, p ∈ l → in_grid size p) →
  Z.of_nat (length done + length l) ≤ size.1 * size.2 →
  (Z.to_nat (size.1 * size.2) ≤ fuel)%nat →
  ∃ st', foldM (λ st p, scan_pixel img size fuel p.1 st p.2) st l = Ok st' ∧
         scan_inv img size (done ++ l) (seeds ++ seeds_from img size fuel st l) st' ∧
         keeps size (labelStorage st) (labelStorage st').
Proof using Hrows Hcols Hfit Hsup.
  revert done seeds st. induction l as [|p l IH]; intros done seeds st Hinv Hl Hlen Hfuel.
  - exists st. rewrite !app_nil_r. split_and!; [done | done | apply keeps_refl].
  - simpl in Hlen.
    destruct (scan_pixel_spec fuel done seeds st p) as (st1 & Hrun1 & Hinv1 & Hk1);
      [done | apply Hl; left | lia | done |].
    destruct (IH _ _ _ Hinv1) as (st2 & Hrun2 & Hinv2 & Hk2).
    { intros q Hq. apply Hl. by right. }
    { rewrite length_app. simpl. lia. }
    { done. }
    exists st2. simpl. rewrite Hrun1. simpl. split_and!.
    + done.
    + by rewrite <- !app_assoc in Hinv2.
    + by eapply keeps_trans.
Qed.

Lemma mark_components_flat fuel st :
  mark_components img size fuel st
  = foldM (λ st p, scan_pixel img size fuel p.1 st p.2) st (scan_order size).
Proof. unfold mark_components. apply foldM_scan_order. Qed.

Lemma run_marking_spec fuel :
  (Z.to_nat (size.1 * size.2) ≤ fuel)%nat →
  ∃ st, run_marking img size fuel = Ok st ∧
        scan_inv img size (scan_order size) (seeds img size fuel) st.
Proof using Hrows Hcols Hfit Hsup.
  intros Hfuel. unfold run_marking, seeds.
  rewrite (new_valid size Hrows Hcols Hfit). simpl.
  rewrite mark_components_flat.
  set (st0 := {| labelStorage := _; currentLabel := labelStart; myQueue := Queue.empty |}).
  destruct (scan_all_spec fuel (scan_order size) [] [] st0) as (st & Hrun & Hinv & _).
  - pose proof (new_lab size Hrows Hcols Hfit) as Hnew.
    split; simpl.
    + apply new_wf.
    + done.
    + lia.
    + done.
    + intros p Hp Hne. by rewrite Hnew in Hne.
    + by intros p ?%elem_of_nil.
    + done.
    + intros _ p n Hp Hne. by rewrite Hnew in Hne.
    + apply NoDup_nil_2.
    + intros p. split; [by intros ?%elem_of_nil |].
      intros [Hp Hne]. by rewrite Hnew in Hne.
  - intros p. apply elem_of_scan_order.
  - simpl. rewrite length_scan_order; lia.
  - done.
  - by exists st.
Qed.

(** The collecting scan puts every labelled coordinate into the
    component of its label. *)
Lemma collect_result_flat L result :
  collect_result size L result
  = foldl (λ result p,
      if bool_decide (lab L p ≠ Quick2DSizeT.NOLABEL) then
        let index := Int.sub (lab L p) labelStart in
        if bool_decide (index < 0) then result
        else alter (λ cc : cc_result_type, {[ p ]} ∪ cc) (Z.to_nat index) result
      else result) result (scan_order size).
Proof.
  unfold collect_result.
  rewrite (foldl_scan_order (λ i result j,
    if bool_decide (Quick2DSizeT.get L i j ≠ Quick2DSizeT.NOLABEL) then
      let index := Int.sub (Quick2DSizeT.get L i j) labelStart in
      if bool_decide (index < 0) then result
      else alter (λ cc : cc_result_type, {[ (i, j) ]} ∪ cc) (Z.to_nat index) result
    else result)).
  apply foldl_pointwise. intros result' [i j]. done.
Qed.

Lemma collect_result_spec L n l result :
  Z.of_nat n ≤ Int.max_int → length result = n →
  (∀ p, in_grid size p → lab L p ≠ Quick2DSizeT.NOLABEL →
        labelStart ≤ lab L p < labelStart + Z.of_nat n) →
  (∀ p, p ∈ l → in_grid size p) →
  let result' :=
    foldl (λ result p,
      if bool_decide (lab L p ≠ Quick2DSizeT.NOLABEL) then
        let index := Int.sub (lab L p) labelStart in
        if bool_decide (index < 0) then result
        else alter (λ cc : cc_result_type, {[ p ]} ∪ cc) (Z.to_nat index) result
      else result) result l in
  length result' = n ∧
  ∀ k x, member result' k x ↔
         member result k x ∨
         (x ∈ l ∧ lab L x = labelStart + Z.of_nat k ∧ (k < n)%nat).
Proof.
  intros Hn Hlen Hsound. revert result Hlen.
  induction l as [|p l IH]; intros result Hlen Hl; simpl.
  - split; [done |]. intros k x. split; [by left |].
    by intros [?|[?%elem_of_nil _]].
  - assert (in_grid size p) as Hp by (apply Hl; left).
    assert (∀ q, q ∈ l → in_grid size q) as Hl' by (intros q Hq; apply Hl; by right).
    case_bool_decide as Hne.
    + destruct (Hsound p Hp Hne) as [Hlo Hhi].
      rewrite sub_exact; last first.
      { rewrite labelStart_eq in *.
        unfold Int.in_range, Int.max_int, Int.min_int in *. lia. }
      rewrite bool_decide_eq_false_2 by lia.
      edestruct (IH (alter (λ cc : cc_result_type, {[ p ]} ∪ cc)
                       (Z.to_nat (lab L p - labelStart)) result)) as [Hlen' Hmem].
      { by rewrite length_alter. }
      { done. }
      split; [exact Hlen' |]. intros k x. rewrite Hmem.
      rewrite member_alter by lia. rewrite elem_of_cons. split.
      * intros [[?|[-> ->]]|(? & ? & ?)]; [by left | | by auto].
        right. split_and!; [by left | lia | lia].
      * intros [?|([->|?] & Heq & ?)]; [by auto | | by auto].
        left. right. split; [lia | done].
    + destruct (IH result Hlen Hl') as [Hlen' Hmem].
      split; [exact Hlen' |]. intros k x. rewrite Hmem, elem_of_cons. split.
      * intros [?|(? & ? & ?)]; auto.
      * intros [?|([->|?] & Heq & ?)]; [by auto | | by auto].
        pose proof NOLABEL_lt_labelStart. lia.
Qed.

(** The finder on a valid grid: it returns, and component [k] of its
    result is the set of coordinates that the marking scan labelled
    [labelStart + k]. *)
Lemma finder_spec fuel :
  (Z.to_nat (size.1 * size.2) ≤ fuel)%nat →
  ∃ st result,
    run_marking img size fuel = Ok st ∧
    scan_inv img size (scan_order size) (seeds img size fuel) st ∧
    ConnectComponentFinder img size fuel = Ok result ∧
    length result = length (seeds img size fuel) ∧
    ∀ k x, member result k x ↔
           in_grid size x ∧ (k < length result)%nat ∧
           lab (labelStorage st) x = labelStart + Z.of_nat k.
Proof using Hrows Hcols Hfit Hsup.
  intros Hfuel. destruct (run_marking_spec fuel Hfuel) as (st & Hrun & Hinv).
  exists st. unfold ConnectComponentFinder.
  rewrite bool_decide_eq_false_2 by lia. rewrite Hrun. simpl.
  pose proof (inv_label _ _ _ _ _ Hinv) as Hlabel.
  pose proof (inv_count _ _ _ _ _ Hinv) as Hcount.
  assert (Z.of_nat (length (scan_order size)) = size.1 * size.2) as Hso
    by (apply length_scan_order; lia).
  rewrite sub_exact; last first.
  { rewrite Hlabel, labelStart_eq.
    unfold Int.in_range, Int.max_int, Int.min_int in *. lia. }
  rewrite bool_decide_eq_false_2 by lia.
  replace (Z.to_nat (currentLabel st - labelStart)) with (length (seeds img size fuel)) by lia.
  rewrite collect_result_flat.
  destruct (collect_result_spec (labelStorage st) (length (seeds img size fuel))
              (scan_order size) (replicate (length (seeds img size fuel)) ∅))
    as [Hlen Hmem].
  { lia. }
  { by rewrite length_replicate. }
  { intros p Hp Hne. destruct (inv_sound _ _ _ _ _ Hinv p Hp Hne). lia. }
  { intros p. apply elem_of_scan_order. }
  eexists. split_and!; [done | done | reflexivity | exact Hlen |].
  intros k x. rewrite Hmem, Hlen, elem_of_scan_order. split.
  - intros [Hm|?]; [by apply member_replicate in Hm | tauto].
  - intros ?. right. tauto.
Qed.

Lemma path_sym p q : symmetric size → path img size p q → path img size q p.
Proof.
  intros Hsym. induction 1 as [p Hp|p n r Hp Hn Hnr IH]; [by apply path_refl |].
  eapply path_trans; [exact IH |].
  pose proof (path_source _ _ Hnr) as Hnfg.
  apply path_edge; [done | done |]. apply Hsym; [apply Hp | apply Hnfg | done].
Qed.

(** In a fully scanned grid, the label is constant along a path. *)
Lemma path_same_label done seeds st p q :
  scan_inv img size done seeds st → symmetric size →
  (∀ x, foreground img size x → lab (labelStorage st) x ≠ Quick2DSizeT.NOLABEL) →
  path img size p q → lab (labelStorage st) q = lab (labelStorage st) p.
Proof.
  intros Hinv Hsym Hall. induction 1 as [p Hp|p n r Hp Hn Hnr IH]; [done |].
  rewrite IH. apply (inv_closed _ _ _ _ _ Hinv Hsym); [apply Hp | by apply Hall | done |].
  by eapply path_source.
Qed.

(** The label of a foreground coordinate after the marking scan, as an
    index into the result. *)
Lemma foreground_index fuel st x :
  scan_inv img size (scan_order size) (seeds img size fuel) st → foreground img size x →
  ∃ k : nat, (k < length (seeds img size fuel))%nat ∧
             lab (labelStorage st) x = labelStart + Z.of_nat k.
Proof.
  intros Hinv Hx.
  assert (lab (labelStorage st) x ≠ Quick2DSizeT.NOLABEL) as Hne.
  { apply (inv_done _ _ _ _ _ Hinv); [|done]. apply elem_of_scan_order, Hx. }
  destruct (inv_sound _ _ _ _ _ Hinv x) as [_ Hrange]; [apply Hx | done |].
  rewrite (inv_label _ _ _ _ _ Hinv) in Hrange.
  exists (Z.to_nat (lab (labelStorage st) x - labelStart)). lia.
Qed.
End Valid.
End Labelling.

(** Both connectivity policies are symmetric on a grid. *)
Lemma FourConnect_symmetric size :
  1 ≤ size.1 → 1 ≤ size.2 → size.1 * size.2 ≤ Int.max_int →
  @symmetric FourConnect size.
Proof.
  intros Hr Hc Hfit [r c] [r' c'] [Hp1 Hp2] [Hq1 Hq2]. simpl in *.
  assert (size.1 ≤ Int.max_int ∧ size.2 ≤ Int.max_int) as [Hr' Hc'] by nia.
  rewrite !FourConnect_exact by (unfold Int.min_int; lia).
  rewrite !elem_of_cons, !elem_of_nil. intros H.
  destruct_or!; try done; simplify_eq.
  - do 2 right. left. f_equal; lia.
  - do 3 right. left. f_equal; lia.
  - left. f_equal; lia.
  - right. left. f_equal; lia.
Qed.

Lemma EightConnect_symmetric size :
  1 ≤ size.1 → 1 ≤ size.2 → size.1 * size.2 ≤ Int.max_int →
  @symmetric EightConnect size.
Proof.
  intros Hr Hc Hfit [r c] [r' c'] [Hp1 Hp2] [Hq1 Hq2]. simpl in *.
  assert (size.1 ≤ Int.max_int ∧ size.2 ≤ Int.max_int) as [Hr' Hc'] by nia.
  intros H.
  apply EightConnect_elem in H; [|unfold Int.min_int; lia ..].
  apply EightConnect_elem; [unfold Int.min_int; lia .. |].
  destruct H as (dr & dc & Hdr & Hdc & Hne & [= -> ->]).
  exists (- dr), (- dc). split_and!; try lia. f_equal; lia.
Qed.

(** ** Every step keeps the labels it finds *)

Lemma foldM_preserves {A B : Type} (f : A → B → outcome A) (R : A → A → Prop)
    (l : list B) :
  (∀ a, R a a) → (∀ a b c, R a b → R b c → R a c) →
  (∀ a x a', x ∈ l → f a x = Ok a' → R a a') →
  ∀ a a', foldM f a l = Ok a' → R a a'.
Proof.
  intros Hrefl Htrans. induction l as [|x l IH]; intros Hf a a' Hrun; simpl in Hrun.
  - injection Hrun as <-. apply Hrefl.
  - destruct (f a x) as [a1| |] eqn:Hx; simpl in Hrun; try done.
    apply Htrans with a1.
    + apply (Hf a x a1); [left | done].
    + apply IH; [|done]. intros b y b' Hy. apply Hf. by right.
Qed.

Lemma foldM_throws {A B : Type} (f : A → B → outcome A) (P : exn → Prop)
    (l : list B) :
  (∀ a x e, f a x = Throw e → P e) →
  ∀ a e, foldM f a l = Throw e → P e.
Proof.
  intros Hf. induction l as [|x l IH]; intros a e Hrun; simpl in Hrun; [done |].
  destruct (f a x) as [a1|e1|] eqn:Hx; simpl in Hrun; try done.
  - by eapply IH.
  - injection Hrun as <-. by eapply Hf.
Qed.

Section Steps.
Context {ImgType ImgDT : Type}.
Context {acc : Access ImgType ImgDT}.
Context {bp : BinaryPredicate ImgDT}.
Context {connect : Connectivity}.

Variable img : ImgType.
Variable size : IntPair.

(** A visit either changes nothing, or labels and enqueues its coordinate,
    which was a foreground coordinate of the grid without a label. *)
Lemma visit_neighbour_cases st pos st' :
  visit_neighbour img size st pos = Ok st' →
  st' = st ∨
  (foreground img size pos ∧
   lab (labelStorage st) pos = Quick2DSizeT.NOLABEL ∧
   st' = {| labelStorage := relabel (labelStorage st) pos (currentLabel st);
            currentLabel := currentLabel st;
            myQueue := Queue.push (myQueue st) pos |}).
Proof.
  unfold visit_neighbour. destruct (IsPixelPosValid size pos) eqn:Hvalid.
  - apply IsPixelPosValid_spec in Hvalid.
    destruct (pred (access img pos.1 pos.2)) as [b| |] eqn:Hb; simpl; try done.
    destruct b; simpl.
    + case_bool_decide as HN; intros [= <-]; [right | by left]. done.
    + intros [= <-]. by left.
  - intros [= <-]. by left.
Qed.

(** The exceptions of a run are those of the classifier. *)
Lemma visit_neighbour_throws st pos e :
  visit_neighbour img size st pos = Throw e → ∃ v, pred v = Throw e.
Proof.
  unfold visit_neighbour. destruct (IsPixelPosValid size pos); [|done].
  destruct (pred (access img pos.1 pos.2)) as [b| |] eqn:Hb; simpl; try done.
  - destruct b; simpl; [by case_bool_decide | done].
  - intros [= <-]. eauto.
Qed.

Lemma drain_queue_throws fuel st e :
  drain_queue img size fuel st = Throw e → ∃ v, pred v = Throw e.
Proof.
  revert st. induction fuel as [|fuel IH]; intros st; simpl;
    destruct (Queue.front (myQueue st)); try done.
  destruct (foldM _ _ _) as [st1|e1|] eqn:Hvis; simpl; try done.
  - apply IH.
  - intros [= <-].
    eapply (foldM_throws _ (λ e, ∃ v, pred v = Throw e)); [|exact Hvis].
    intros a x e'. apply visit_neighbour_throws.
Qed.

Lemma scan_pixel_throws fuel i st j e :
  scan_pixel img size fuel i st j = Throw e → ∃ v, pred v = Throw e.
Proof.
  unfold scan_pixel.
  destruct (pred (access img i j)) as [b| |] eqn:Hb; simpl; try done.
  - destruct b; [|done].
    destruct (drain_queue _ _ _ _) as [st2|e2|] eqn:Hd; simpl; try done.
    + by case_bool_decide.
    + intros [= <-]. by eapply drain_queue_throws.
  - intros [= <-]. eauto.
Qed.

Lemma mark_components_throws fuel st e :
  mark_components img size fuel st = Throw e → ∃ v, pred v = Throw e.
Proof.
  unfold mark_components.
  apply (foldM_throws _ (λ e, ∃ v, pred v = Throw e)). intros a i e'.
  apply (foldM_throws _ (λ e, ∃ v, pred v = Throw e)). intros a' j e''.
  apply scan_pixel_throws.
Qed.

Lemma finder_throws fuel e :
  ConnectComponentFinder img size fuel = Throw e →
  e = runtime_error "invalid size" ∧ (size.1 < 1 ∨ size.2 < 1) ∨
  e = length_error ∨ ∃ v, pred v = Throw e.
Proof.
  unfold ConnectComponentFinder. case_bool_decide as Hsize.
  { intros [= <-]. by left. }
  right. revert H. unfold run_marking, Quick2DSizeT.new.
  case_bool_decide; simpl.
  { intros [= <-]. by left. }
  destruct (mark_components _ _ _ _) as [st|e1|] eqn:Hmark; simpl; try done.
  - case_bool_decide; [|done]. intros [= <-]. by left.
  - intros [= <-]. right. by eapply mark_components_throws.
Qed.

(** The seeds are met in the order of the scan. *)
Lemma seeds_from_sublist fuel st l : sublist (seeds_from img size fuel st l) l.
Proof.
  revert st. induction l as [|p l IH]; intros st; simpl; [constructor |].
  assert (sublist (match scan_pixel img size fuel p.1 st p.2 with
                   | Ok st' => seeds_from img size fuel st' l
                   | _ => []
                   end) l) as Hrest.
  { destruct (scan_pixel _ _ _ _ _ _); [apply IH | apply sublist_nil_l ..]. }
  destruct (is_seed img st p); simpl; by constructor.
Qed.

Lemma seeds_sublist fuel : sublist (seeds img size fuel) (scan_order size).
Proof.
  unfold seeds. destruct (Quick2DSizeT.new _ _);
    [apply seeds_from_sublist | apply sublist_nil_l ..].
Qed.

(** More fuel does not change a result. *)
Lemma drain_queue_mono fuel fuel' st st' :
  drain_queue img size fuel st = Ok st' → (fuel ≤ fuel')%nat →
  drain_queue img size fuel' st = Ok st'.
Proof.
  revert fuel' st. induction fuel as [|fuel IH]; intros fuel' st; simpl.
  - destruct (Queue.front (myQueue st)) eqn:Hfront; [done |].
    intros [= <-] _. destruct fuel'; simpl; by rewrite Hfront.
  - destruct (Queue.front (myQueue st)) eqn:Hfront.
    + intros Hrun Hle. destruct fuel' as [|fuel']; [lia |]. simpl. rewrite Hfront.
      destruct (foldM _ _ _) as [st1| |]; simpl in *; try done.
      apply IH; [done | lia].
    + intros [= <-] _. destruct fuel'; simpl; by rewrite Hfront.
Qed.

Lemma scan_pixel_mono fuel fuel' i st j st' :
  scan_pixel img size fuel i st j = Ok st' → (fuel ≤ fuel')%nat →
  scan_pixel img size fuel' i st j = Ok st'.
Proof.
  unfold scan_pixel. intros Hrun Hle.
  destruct (pred (access img i j)) as [b| |]; simpl in *; try done.
  destruct b; [|done].
  destruct (drain_queue img size fuel _) as [st2| |] eqn:Hd; simpl in *; try done.
  by rewrite (drain_queue_mono _ fuel' _ _ Hd Hle).
Qed.

Lemma foldM_mono {A B : Type} (f g : A → B → outcome A) (l : list B) :
  (∀ a x a', f a x = Ok a' → g a x = Ok a') →
  ∀ a a', foldM f a l = Ok a' → foldM g a l = Ok a'.
Proof.
  intros Hfg. induction l as [|x l IH]; intros a a' Hrun; simpl in *; [done |].
  destruct (f a x) as [a1| |] eqn:Hx; simpl in *; try done.
  rewrite (Hfg _ _ _ Hx). simpl. by apply IH.
Qed.

Lemma mark_components_mono fuel fuel' st st' :
  mark_components img size fuel st = Ok st' → (fuel ≤ fuel')%nat →
  mark_components img size fuel' st = Ok st'.
Proof.
  intros Hrun Hle. revert Hrun. unfold mark_components. apply foldM_mono.
  intros a i a'. apply foldM_mono. intros b j b' Hj. by eapply scan_pixel_mono.
Qed.

Lemma finder_mono fuel fuel' result :
  ConnectComponentFinder img size fuel = Ok result → (fuel ≤ fuel')%nat →
  ConnectComponentFinder img size fuel' = Ok result.
Proof.
  unfold ConnectComponentFinder, run_marking. intros Hrun Hle.
  case_bool_decide; [done |].
  destruct (Quick2DSizeT.new _ _) as [L| |]; simpl in *; try done.
  destruct (mark_components img size fuel _) as [st| |] eqn:Hm; simpl in *; try done.
  by rewrite (mark_components_mono _ fuel' _ _ Hm Hle).
Qed.

Hypothesis Hrows : 1 ≤ size.1.
Hypothesis Hcols : 1 ≤ size.2.
Hypothesis Hfit : size.1 * size.2 ≤ Int.max_int.

Lemma stable_refl st : stable size st st.
Proof. intros HL. split; [done |]. by intros p. Qed.

Lemma stable_trans st1 st2 st3 : stable size st1 st2 → stable size st2 st3 → stable size st1 st3.
Proof.
  intros H12 H23 HL. destruct (H12 HL) as [HL2 Hk12].
  destruct (H23 HL2) as [HL3 Hk23]. split; [done |].
  intros p Hp Hne. rewrite Hk23, Hk12; [done .. |]. by rewrite Hk12.
Qed.

Lemma relabel_stable L p v :
  wf size L → in_grid size p → lab L p = Quick2DSizeT.NOLABEL →
  wf size (relabel L p v) ∧ keeps size L (relabel L p v).
Proof using Hrows Hcols Hfit.
  intros HL Hp HN. split; [by apply wf_relabel |].
  intros q Hq Hne. apply (lab_relabel_ne size Hrows Hcols Hfit); [done .. |].
  intros ->. done.
Qed.

Lemma visit_neighbour_stable st pos st' :
  visit_neighbour img size st pos = Ok st' → stable size st st'.
Proof using Hrows Hcols Hfit.
  intros [->|([Hp _] & HN & ->)]%visit_neighbour_cases; [apply stable_refl |].
  intros HL. simpl. by apply relabel_stable.
Qed.

Lemma drain_queue_stable fuel st st' :
  drain_queue img size fuel st = Ok st' → stable size st st'.
Proof using Hrows Hcols Hfit.
  revert st. induction fuel as [|fuel IH]; intros st; simpl;
    destruct (Queue.front (myQueue st)); try done;
    try (intros [= <-]; apply stable_refl).
  destruct (foldM _ _ _) as [st1| |] eqn:Hvis; simpl; try done.
  intros Hrun. eapply stable_trans; [|by apply IH].
  eapply (foldM_preserves _ (stable size)) in Hvis;
    [exact Hvis | apply stable_refl | apply stable_trans |].
  intros a x a' _. apply visit_neighbour_stable.
Qed.

Lemma scan_pixel_stable fuel p st st' :
  in_grid size p → scan_pixel img size fuel p.1 st p.2 = Ok st' → stable size st st'.
Proof using Hrows Hcols Hfit.
  intros Hp. unfold scan_pixel.
  destruct (pred (access img p.1 p.2)) as [b| |] eqn:Hb; simpl; try done.
  destruct b; [|intros [= <-]; apply stable_refl].
  fold (lab (labelStorage st) p). case_bool_decide as HN.
  - destruct (drain_queue _ _ _ _) as [st2| |] eqn:Hd; simpl; try done.
    intros [= <-]. apply drain_queue_stable in Hd.
    intros HL. destruct Hd as [HL2 Hk2]; [simpl; by apply wf_relabel |].
    simpl in *. split; [done |].
    destruct (relabel_stable (labelStorage st) p (currentLabel st) HL Hp HN) as [_ Hk1].
    unfold relabel in Hk1. intros q Hq Hne. rewrite Hk2, Hk1; try done.
    by rewrite Hk1.
  - destruct (drain_queue _ _ _ _) as [st2| |] eqn:Hd; simpl; try done.
    intros [= <-]. by apply drain_queue_stable in Hd.
Qed.

Lemma mark_components_stable fuel st st' :
  mark_components img size fuel st = Ok st' → stable size st st'.
Proof using Hrows Hcols Hfit.
  rewrite mark_components_flat.
  apply (foldM_preserves _ (stable size)); [apply stable_refl | apply stable_trans |].
  intros a x a' Hx. apply scan_pixel_stable. by apply elem_of_scan_order.
Qed.
End Steps.

Lemma elem_of_data size L v :
  1 ≤ size.1 → 1 ≤ size.2 → size.1 * size.2 ≤ Int.max_int → wf size L →
  v ∈ Quick2DSizeT.data L ↔ ∃ p, in_grid size p ∧ lab L p = v.
Proof.
  intros Hr Hc Hfit HL. split.
  - intros [i Hi]%list_elem_of_lookup.
    apply lookup_lt_Some in Hi as Hlt. destruct HL as [Hcols Hlen] eqn:HLeq.
    rewrite Hlen in Hlt.
    assert (in_grid size (Z.of_nat i `div` size.2, Z.of_nat i `mod` size.2)) as Hp.
    { split; simpl.
      - split; [apply Z.div_pos; lia | apply Z.div_lt_upper_bound; lia].
      - apply Z.mod_pos_bound. lia. }
    eexists. split; [exact Hp |].
    pose proof (lab_lookup size Hr Hc Hfit L _ HL Hp) as Hlk. simpl in Hlk.
    replace (Z.of_nat i `div` size.2 * size.2 + Z.of_nat i `mod` size.2)
      with (Z.of_nat i) in Hlk
      by (rewrite (Z.div_mod (Z.of_nat i) size.2) at 1; lia).
    rewrite Nat2Z.id in Hlk. congruence.
  - intros (p & Hp & <-). eapply list_elem_of_lookup_2. by apply lab_lookup.
Qed.

Lemma elem_of_assigned_labels size L v :
  1 ≤ size.1 → 1 ≤ size.2 → size.1 * size.2 ≤ Int.max_int → wf size L →
  v ∈ assigned_labels L ↔
  v ≠ Quick2DSizeT.NOLABEL ∧ ∃ p, in_grid size p ∧ lab L p = v.
Proof.
  intros Hr Hc Hfit HL. unfold assigned_labels.
  rewrite elem_of_list_to_set, list_elem_of_filter.
  by rewrite (elem_of_data size).
Qed.

(** ** The claims about the result of the finder *)

Section Claims.
Context {ImgType ImgDT : Type}.
Context {acc : Access ImgType ImgDT}.
Context {bp : BinaryPredicate ImgDT}.
Context {connect : Connectivity}.

(** C1 (amended).  On a grid of at least one row and one column whose
    number of pixels [rows * cols] is representable as an [int], and a
    pixel type the classifier supports, the finder returns, and the
    components it returns partition the foreground:
    a coordinate is in some component exactly when it is a foreground
    coordinate of the grid (so no background coordinate is in any), and two
    components at different indices are disjoint. *)
Theorem components_partition_foreground (img : ImgType) (rows cols : Z) :
  1 ≤ rows → 1 ≤ cols → rows * cols ≤ Int.max_int → supported bp →
  ∃ result,
    (∀ fuel, (Z.to_nat (rows * cols) ≤ fuel)%nat →
             ConnectComponentFinder img (rows, cols) fuel = Ok result) ∧
    (∀ x, (∃ k, member result k x) ↔ foreground img (rows, cols) x) ∧
    (∀ k1 k2 cc1 cc2, result !! k1 = Some cc1 → result !! k2 = Some cc2 →
                      k1 ≠ k2 → cc1 ## cc2).
Proof.
  intros Hrows Hcols Hfit Hsup.
  destruct (finder_spec img (rows, cols) Hrows Hcols Hfit Hsup
              (Z.to_nat (rows * cols)) (le_n _))
    as (st & result & Hrun & Hinv & Hres & Hlen & Hmem).
  exists result. split_and!.
  - intros fuel Hfuel. by apply (finder_mono img (rows, cols) _ fuel) in Hres.
  - intros x. split.
    + intros [k (Hx & Hk & Hlab)%Hmem].
      apply (inv_sound _ _ _ _ _ Hinv); [done |].
      rewrite Hlab. pose proof NOLABEL_lt_labelStart. lia.
    + intros Hx. destruct (foreground_index _ _ _ _ _ Hinv Hx) as (k & Hk & Hlab).
      exists k. apply Hmem. split_and!; [apply Hx | lia | done].
  - intros k1 k2 cc1 cc2 H1 H2 Hne. apply elem_of_disjoint. intros x Hx1 Hx2.
    assert (member result k1 x) as (_ & _ & Hl1)%Hmem by by exists cc1.
    assert (member result k2 x) as (_ & _ & Hl2)%Hmem by by exists cc2.
    lia.
Qed.

(** C2 (amended).  On a grid of at least one row and one column whose
    number of pixels [rows * cols] is representable as an [int], and a
    pixel type the classifier supports: under 4- or 8-connectivity, two
    foreground coordinates are in the same returned component exactly when
    a path of foreground coordinates, each a neighbour of the one before
    it, leads from one to the other. *)
Theorem components_are_path_classes (img : ImgType) (rows cols : Z) :
  1 ≤ rows → 1 ≤ cols → rows * cols ≤ Int.max_int → supported bp →
  connect = FourConnect ∨ connect = EightConnect →
  ∃ result,
    (∀ fuel, (Z.to_nat (rows * cols) ≤ fuel)%nat →
             ConnectComponentFinder img (rows, cols) fuel = Ok result) ∧
    ∀ p q, foreground img (rows, cols) p → foreground img (rows, cols) q →
      ((∃ k, member result k p ∧ member result k q) ↔ path img (rows, cols) p q).
Proof.
  intros Hrows Hcols Hfit Hsup Hconn.
  destruct (finder_spec img (rows, cols) Hrows Hcols Hfit Hsup
              (Z.to_nat (rows * cols)) (le_n _))
    as (st & result & Hrun & Hinv & Hres & Hlen & Hmem).
  set (fuel := Z.to_nat (rows * cols)) in *.
  assert (symmetric (rows, cols)) as Hsym.
  { destruct Hconn as [-> | ->];
      [by apply FourConnect_symmetric | by apply EightConnect_symmetric]. }
  exists result. split.
  { intros fuel' Hfuel. by apply (finder_mono img (rows, cols) _ fuel') in Hres. }
  intros p q Hp Hq. split.
  - intros (k & (_ & Hk & Hlp)%Hmem & (_ & _ & Hlq)%Hmem).
    destruct (lookup_lt_is_Some_2 (seeds img (rows, cols) fuel) k) as [s Hs]; [lia |].
    destruct (inv_seed _ _ _ _ _ Hinv k s Hs) as (_ & _ & Hreach).
    eapply path_trans.
    + apply path_sym; [done |]. apply Hreach; [apply Hp | done].
    + apply Hreach; [apply Hq | done].
  - intros Hpath.
    destruct (foreground_index _ _ _ _ _ Hinv Hp) as (k & Hk & Hlab).
    assert (lab (labelStorage st) q = lab (labelStorage st) p) as Hsame.
    { eapply path_same_label; [done | done | | done].
      intros x Hx. apply (inv_done _ _ _ _ _ Hinv); [|done].
      apply elem_of_scan_order, Hx. }
    exists k. split; apply Hmem; (split_and!; [apply Hp || apply Hq | lia | congruence]).
Qed.

(** C3 (amended).  On a grid of at least one row and one column whose
    number of pixels [rows * cols] is representable as an [int], and a
    pixel type the classifier supports: the components are indexed by the
    labels, which are the integers [labelStart], [labelStart + 1], ...
    without a gap: component [k] is the
    set of coordinates labelled [labelStart + k]; and component [k] holds
    the [k]-th seed (counting from 0), the seeds being the foreground
    pixels that the row-major marking scan reached while they were still
    unlabelled. *)
Theorem labels_follow_scan_order (img : ImgType) (rows cols : Z) (fuel : nat) :
  1 ≤ rows → 1 ≤ cols → rows * cols ≤ Int.max_int → supported bp →
  (Z.to_nat (rows * cols) ≤ fuel)%nat →
  ∃ st result,
    run_marking img (rows, cols) fuel = Ok st ∧
    ConnectComponentFinder img (rows, cols) fuel = Ok result ∧
    (∀ v, (∃ p, in_grid (rows, cols) p ∧ lab (labelStorage st) p = v ∧
                v ≠ Quick2DSizeT.NOLABEL)
          ↔ labelStart ≤ v < labelStart + Z.of_nat (length result)) ∧
    (∀ k x, member result k x ↔
            in_grid (rows, cols) x ∧ (k < length result)%nat ∧
            lab (labelStorage st) x - labelStart = Z.of_nat k) ∧
    length (seeds img (rows, cols) fuel) = length result ∧
    sublist (seeds img (rows, cols) fuel) (scan_order (rows, cols)) ∧
    (∀ k s, seeds img (rows, cols) fuel !! k = Some s →
            foreground img (rows, cols) s ∧ member result k s ∧
            ∀ x, member result k x → path img (rows, cols) s x).
Proof.
  intros Hrows Hcols Hfit Hsup Hfuel.
  destruct (finder_spec img (rows, cols) Hrows Hcols Hfit Hsup fuel Hfuel)
    as (st & result & Hrun & Hinv & Hres & Hlen & Hmem).
  exists st, result. split_and!; [done | done | | | done | apply seeds_sublist |].
  - intros v. split.
    + intros (p & Hp & <- & Hne).
      destruct (inv_sound _ _ _ _ _ Hinv p Hp Hne) as [_ Hrange].
      rewrite (inv_label _ _ _ _ _ Hinv) in Hrange. lia.
    + intros Hv.
      destruct (lookup_lt_is_Some_2 (seeds img (rows, cols) fuel)
                  (Z.to_nat (v - labelStart))) as [s Hs]; [lia |].
      destruct (inv_seed _ _ _ _ _ Hinv _ s Hs) as (Hsfg & Hslab & _).
      exists s. split_and!; [apply Hsfg | lia |].
      pose proof NOLABEL_lt_labelStart. lia.
  - intros k x. rewrite Hmem. split; intros (? & ? & ?); split_and!; [done | done | lia | done | done | lia].
  - intros k s Hs.
    destruct (inv_seed _ _ _ _ _ Hinv k s Hs) as (Hsfg & Hslab & Hreach).
    apply lookup_lt_Some in Hs as Hk. split_and!.
    + done.
    + apply Hmem. split_and!; [apply Hsfg | lia | done].
    + intros x (Hx & _ & Hlab)%Hmem. by apply Hreach.
Qed.

(** C9.  A visit that enqueues a coordinate labels it in the same step, and
    only a coordinate without a label is enqueued; no step of the marking
    scan changes a label that a slot already holds; and in a run of the
    finder no coordinate is pushed onto the work queue twice: the pushed
    coordinates are the labelled ones, each once. *)
Theorem labelled_when_enqueued (img : ImgType) (rows cols : Z) (fuel : nat) :
  1 ≤ rows → 1 ≤ cols → rows * cols ≤ Int.max_int → supported bp →
  (Z.to_nat (rows * cols) ≤ fuel)%nat →
  (∀ st pos st', visit_neighbour img (rows, cols) st pos = Ok st' →
     st' = st ∨
     (in_grid (rows, cols) pos ∧
      lab (labelStorage st) pos = Quick2DSizeT.NOLABEL ∧
      myQueue st' = Queue.push (myQueue st) pos ∧
      labelStorage st' = relabel (labelStorage st) pos (currentLabel st))) ∧
  (∀ st st', wf (rows, cols) (labelStorage st) →
     (∀ pos, visit_neighbour img (rows, cols) st pos = Ok st' →
             keeps (rows, cols) (labelStorage st) (labelStorage st')) ∧
     (drain_queue img (rows, cols) fuel st = Ok st' →
             keeps (rows, cols) (labelStorage st) (labelStorage st')) ∧
     (∀ p, in_grid (rows, cols) p →
           scan_pixel img (rows, cols) fuel p.1 st p.2 = Ok st' →
           keeps (rows, cols) (labelStorage st) (labelStorage st')) ∧
     (mark_components img (rows, cols) fuel st = Ok st' →
             keeps (rows, cols) (labelStorage st) (labelStorage st'))) ∧
  ∃ st, run_marking img (rows, cols) fuel = Ok st ∧
        NoDup (Queue.pushed (myQueue st)) ∧
        Queue.items (myQueue st) = [] ∧
        ∀ p, p ∈ Queue.pushed (myQueue st) ↔
             in_grid (rows, cols) p ∧
             lab (labelStorage st) p ≠ Quick2DSizeT.NOLABEL.
Proof.
  intros Hrows Hcols Hfit Hsup Hfuel. split_and!.
  - intros st pos st' [->|([Hp _] & HN & ->)]%visit_neighbour_cases; [by left |].
    by right.
  - intros st st' HL. split_and!.
    + intros pos Hrun.
      by apply (visit_neighbour_stable img (rows, cols) Hrows Hcols Hfit) in Hrun as [_ ?].
    + intros Hrun.
      by apply (drain_queue_stable img (rows, cols) Hrows Hcols Hfit) in Hrun as [_ ?].
    + intros p Hp Hrun.
      by apply (scan_pixel_stable img (rows, cols) Hrows Hcols Hfit) in Hrun as [_ ?].
    + intros Hrun.
      by apply (mark_components_stable img (rows, cols) Hrows Hcols Hfit) in Hrun as [_ ?].
  - destruct (run_marking_spec img (rows, cols) Hrows Hcols Hfit Hsup fuel Hfuel)
      as (st & Hrun & Hinv).
    exists st. split_and!; [done | apply Hinv | apply Hinv | apply Hinv].
Qed.

(** C10 (amended).  On a grid of at least one row and one column whose
    number of pixels [rows * cols] is representable as an [int], and a
    pixel type the classifier supports: every returned component is
    non-empty, component [k] holding the [k]-th seed; the number of
    components is the number of seeds, and it is the number of distinct
    labels in the grid after the marking scan. *)
Theorem components_nonempty_and_counted (img : ImgType) (rows cols : Z) (fuel : nat) :
  1 ≤ rows → 1 ≤ cols → rows * cols ≤ Int.max_int → supported bp →
  (Z.to_nat (rows * cols) ≤ fuel)%nat →
  ∃ st result,
    run_marking img (rows, cols) fuel = Ok st ∧
    ConnectComponentFinder img (rows, cols) fuel = Ok result ∧
    (∀ k cc, result !! k = Some cc →
             cc ≠ ∅ ∧ ∃ s, seeds img (rows, cols) fuel !! k = Some s ∧ s ∈ cc) ∧
    length result = length (seeds img (rows, cols) fuel) ∧
    length result = size (assigned_labels (labelStorage st)).
Proof.
  intros Hrows Hcols Hfit Hsup Hfuel.
  destruct (finder_spec img (rows, cols) Hrows Hcols Hfit Hsup fuel Hfuel)
    as (st & result & Hrun & Hinv & Hres & Hlen & Hmem).
  exists st, result. split_and!; [done | done | | done |].
  - intros k cc Hcc. apply lookup_lt_Some in Hcc as Hk.
    destruct (lookup_lt_is_Some_2 (seeds img (rows, cols) fuel) k) as [s Hs]; [lia |].
    destruct (inv_seed _ _ _ _ _ Hinv k s Hs) as (Hsfg & Hslab & _).
    assert (member result k s) as (cc' & Hcc' & Hin).
    { apply Hmem. split_and!; [apply Hsfg | done | done]. }
    assert (cc' = cc) as -> by congruence.
    split; [|by exists s]. intros ->. by apply not_elem_of_empty in Hin.
  - assert (assigned_labels (labelStorage st)
            = list_to_set (seqZ labelStart (Z.of_nat (length result)))) as ->.
    { apply set_eq. intros v.
      rewrite (elem_of_assigned_labels (rows, cols)); [|done | done | done | apply Hinv].
      rewrite elem_of_list_to_set, elem_of_seqZ. split.
      - intros (Hne & p & Hp & <-).
        destruct (inv_sound _ _ _ _ _ Hinv p Hp Hne) as [_ Hrange].
        rewrite (inv_label _ _ _ _ _ Hinv) in Hrange. lia.
      - intros Hv.
        destruct (lookup_lt_is_Some_2 (seeds img (rows, cols) fuel)
                    (Z.to_nat (v - labelStart))) as [s Hs]; [lia |].
        destruct (inv_seed _ _ _ _ _ Hinv _ s Hs) as (Hsfg & Hslab & _).
        pose proof NOLABEL_lt_labelStart.
        split; [lia |]. exists s. split; [apply Hsfg | lia]. }
    rewrite size_list_to_set by apply NoDup_seqZ.
    rewrite length_seqZ. lia.
Qed.
End Claims.

(** ** Grids with more pixels than an [int] counts

    46341 × 46341 = 2147488281 exceeds [INT_MAX].  The product
    [rows * cols] of the constructor wraps to a negative [int], [resize]
    refuses it, and the call ends in [length_error] before any pixel is
    read: on such a grid the finder returns nothing. *)

Lemma finder_beyond_int_range {ImgType ImgDT : Type} {acc : Access ImgType ImgDT}
    {bp : BinaryPredicate ImgDT} {connect : Connectivity}
    (img : ImgType) (fuel : nat) :
  ConnectComponentFinder img (46341, 46341) fuel = Throw length_error.
Proof. reflexivity. Qed.

Lemma run_marking_beyond_int_range {ImgType ImgDT : Type} {acc : Access ImgType ImgDT}
    {bp : BinaryPredicate ImgDT} {connect : Connectivity}
    (img : ImgType) (fuel : nat) :
  run_marking img (46341, 46341) fuel = Throw length_error.
Proof. reflexivity. Qed.

(** C1 as the specification states it (rows >= 1, cols >= 1 and a supported
    pixel type, nothing more) fails on the all-foreground [bool] image of
    46341 × 46341 pixels: no fuel makes the finder return components that
    partition its foreground. *)
Lemma partition_fails_beyond_int_range :
  (1 ≤ 46341 ∧ supported BinaryPredicate_bool) ∧
  ¬ ∃ result fuel,
      ConnectComponentFinder (acc := RoundBracketAccess bool) (connect := FourConnect)
        solid_image (46341, 46341) fuel = Ok result ∧
      (∀ x, (∃ k, member result k x)
            ↔ foreground (acc := RoundBracketAccess bool) solid_image (46341, 46341) x) ∧
      (∀ k1 k2 cc1 cc2, result !! k1 = Some cc1 → result !! k2 = Some cc2 →
                        k1 ≠ k2 → cc1 ## cc2).
Proof.
  split; [split; [lia | apply supported_bool] |].
  intros (result & fuel & Hrun & _).
  rewrite finder_beyond_int_range in Hrun. discriminate Hrun.
Qed.

(** C2 as the specification states it fails on the same image: (0, 0) is a
    foreground coordinate with a path to itself, yet no fuel makes the
    finder return components whose classes are the path classes. *)
Lemma path_classes_fail_beyond_int_range :
  (1 ≤ 46341 ∧ supported BinaryPredicate_bool) ∧
  path (acc := RoundBracketAccess bool) (connect := FourConnect)
    solid_image (46341, 46341) (0, 0) (0, 0) ∧
  ¬ ∃ result fuel,
      ConnectComponentFinder (acc := RoundBracketAccess bool) (connect := FourConnect)
        solid_image (46341, 46341) fuel = Ok result ∧
      ∀ p q,
        foreground (acc := RoundBracketAccess bool) solid_image (46341, 46341) p →
        foreground (acc := RoundBracketAccess bool) solid_image (46341, 46341) q →
        ((∃ k, member result k p ∧ member result k q)
         ↔ path (acc := RoundBracketAccess bool) (connect := FourConnect)
                solid_image (46341, 46341) p q).
Proof.
  split; [split; [lia | apply supported_bool] |]. split.
  - apply path_refl. split; [split; simpl; lia | reflexivity].
  - intros (result & fuel & Hrun & _).
    rewrite finder_beyond_int_range in Hrun. discriminate Hrun.
Qed.

(** C3 as the specification states it ("every valid input") fails on the
    same image: the marking scan does not take place and no sequence of
    components, indexed by labels in seed order, is returned. *)
Lemma scan_order_labels_fail_beyond_int_range :
  (1 ≤ 46341 ∧ supported BinaryPredicate_bool) ∧
  ¬ ∃ st result fuel,
      run_marking (acc := RoundBracketAccess bool) (connect := FourConnect)
        solid_image (46341, 46341) fuel = Ok st ∧
      ConnectComponentFinder (acc := RoundBracketAccess bool) (connect := FourConnect)
        solid_image (46341, 46341) fuel = Ok result ∧
      (∀ k x, member result k x ↔
              in_grid (46341, 46341) x ∧ (k < length result)%nat ∧
              lab (labelStorage st) x - labelStart = Z.of_nat k) ∧
      (∀ k s, seeds (acc := RoundBracketAccess bool) (connect := FourConnect)
                solid_image (46341, 46341) fuel !! k = Some s →
              member result k s).
Proof.
  split; [split; [lia | apply supported_bool] |].
  intros (st & result & fuel & Hrun & _).
  rewrite run_marking_beyond_int_range in Hrun. discriminate Hrun.
Qed.

(** C10 as the specification states it ("every valid input") fails on the
    same image: there is no returned sequence whose components are
    non-empty and whose length counts the seeds. *)
Lemma count_fails_beyond_int_range :
  (1 ≤ 46341 ∧ supported BinaryPredicate_bool) ∧
  ¬ ∃ result fuel,
      ConnectComponentFinder (acc := RoundBracketAccess bool) (connect := FourConnect)
        solid_image (46341, 46341) fuel = Ok result ∧
      (∀ k cc, result !! k = Some cc → cc ≠ ∅) ∧
      length result
      = length (seeds (acc := RoundBracketAccess bool) (connect := FourConnect)
                  solid_image (46341, 46341) fuel).
Proof.
  split; [split; [lia | apply supported_bool] |].
  intros (result & fuel & Hrun & _).
  rewrite finder_beyond_int_range in Hrun. discriminate Hrun.
Qed.

(** ** Failures (C5, C6) *)

(** C6.  When the size has fewer than one row or fewer than one column,
    the finder throws the invalid-size error, whatever the image, the
    classifier, the connectivity and the fuel: nothing is computed before
    the check, and no result is returned.  When the size has at least one
    row and one column, the finder does not throw that error (unless the
    classifier supplied to it does). *)
Theorem invalid_size_rejected {ImgType ImgDT : Type} {acc : Access ImgType ImgDT}
    {bp : BinaryPredicate ImgDT} {connect : Connectivity}
    (img : ImgType) (rows cols : Z) (fuel : nat) :
  (rows < 1 ∨ cols < 1 →
   ConnectComponentFinder img (rows, cols) fuel = Throw InvalidDimension) ∧
  (1 ≤ rows → 1 ≤ cols → (∀ v, pred v ≠ Throw InvalidDimension) →
   ConnectComponentFinder img (rows, cols) fuel ≠ Throw InvalidDimension).
Proof.
  split.
  - intros Hsize. unfold ConnectComponentFinder.
    by rewrite bool_decide_eq_true_2.
  - intros Hrows Hcols Hpred Hrun.
    apply finder_throws in Hrun as [[_ Hsize]|[Hrun|[v Hv]]].
    + simpl in Hsize. lia.
    + done.
    + by apply (Hpred v).
Qed.



(** ** The scenarios of the specification, run on the model *)


Example scenario_B :
  ConnectComponentFinder (acc := SquareBracketAccess bool) (connect := EightConnect)
    scenario_grid (3, 3) 9
  = Ok [ {[ (0, 0); (0, 1); (1, 1); (2, 2) ]} ].
Proof. vm_compute. reflexivity. Qed.

Example scenario_C :
  ConnectComponentFinder (acc := SquareBracketAccess bool) (connect := FourConnect)
    checkerboard (2, 2) 4
  = Ok [ {[ (0, 0) ]}; {[ (1, 1) ]} ] ∧
  ConnectComponentFinder (acc := SquareBracketAccess bool) (connect := EightConnect)
    checkerboard (2, 2) 4
  = Ok [ {[ (0, 0); (1, 1) ]} ].
Proof. split; vm_compute; reflexivity. Qed.

Example boundary_grids :
  ConnectComponentFinder (acc := SquareBracketAccess bool) (connect := FourConnect)
    [[true]] (1, 1) 1
  = Ok [ {[ (0, 0) ]} ] ∧
  ConnectComponentFinder (acc := SquareBracketAccess bool) (connect := FourConnect)
    [[false; false]; [false; false]] (2, 2) 4
  = Ok [] ∧
  seeds (acc := SquareBracketAccess bool) (connect := FourConnect)
    scenario_grid (3, 3) 9 = [(0, 0); (2, 2)].
Proof. split_and!; vm_compute; reflexivity. Qed.

(** ** The theorems at a concrete input *)

Lemma components_partition_foreground_witness :
  ∃ result,
    (∀ fuel, (9 ≤ fuel)%nat →
       ConnectComponentFinder (acc := SquareBracketAccess bool) (connect := FourConnect)
         scenario_grid (3, 3) fuel = Ok result) ∧
    (∀ x, (∃ k, member result k x)
          ↔ foreground (acc := SquareBracketAccess bool) scenario_grid (3, 3) x) ∧
    (∀ k1 k2 cc1 cc2, result !! k1 = Some cc1 → result !! k2 = Some cc2 →
                      k1 ≠ k2 → cc1 ## cc2).
Proof.
  apply (components_partition_foreground (acc := SquareBracketAccess bool)
           (connect := FourConnect) scenario_grid 3 3).
  - lia.
  - lia.
  - unfold Int.max_int. lia.
  - intros v. exists v. reflexivity.
Defined.

Lemma components_are_path_classes_witness :
  ∃ result,
    (∀ fuel, (9 ≤ fuel)%nat →
       ConnectComponentFinder (acc := SquareBracketAccess bool) (connect := EightConnect)
         scenario_grid (3, 3) fuel = Ok result) ∧
    ∀ p q,
      foreground (acc := SquareBracketAccess bool) scenario_grid (3, 3) p →
      foreground (acc := SquareBracketAccess bool) scenario_grid (3, 3) q →
      ((∃ k, member result k p ∧ member result k q)
       ↔ path (acc := SquareBracketAccess bool) (connect := EightConnect)
              scenario_grid (3, 3) p q).
Proof.
  apply (components_are_path_classes (acc := SquareBracketAccess bool)
           (connect := EightConnect) scenario_grid 3 3).
  - lia.
  - lia.
  - unfold Int.max_int. lia.
  - intros v. exists v. reflexivity.
  - right. reflexivity.
Defined.

Lemma labels_follow_scan_order_witness :
  ∃ st result,
    run_marking (acc := SquareBracketAccess bool) (connect := FourConnect)
      scenario_grid (3, 3) 9 = Ok st ∧
    ConnectComponentFinder (acc := SquareBracketAccess bool) (connect := FourConnect)
      scenario_grid (3, 3) 9 = Ok result ∧
    (∀ k s, seeds (acc := SquareBracketAccess bool) (connect := FourConnect)
              scenario_grid (3, 3) 9 !! k = Some s → member result k s).
Proof.
  destruct (labels_follow_scan_order (acc := SquareBracketAccess bool)
              (connect := FourConnect) scenario_grid 3 3 9)
    as (st & result & Hrun & Hres & _ & _ & _ & _ & Hseed).
  - lia.
  - lia.
  - unfold Int.max_int. lia.
  - intros v. exists v. reflexivity.
  - simpl. lia.
  - exists st, result. split; [exact Hrun |]. split; [exact Hres |].
    intros k s Hs. exact (proj1 (proj2 (Hseed k s Hs))).
Defined.

Lemma labelled_when_enqueued_witness :
  ∃ st,
    run_marking (acc := SquareBracketAccess bool) (connect := FourConnect)
      scenario_grid (3, 3) 9 = Ok st ∧
    NoDup (Queue.pushed (myQueue st)).
Proof.
  destruct (labelled_when_enqueued (acc := SquareBracketAccess bool)
              (connect := FourConnect) scenario_grid 3 3 9)
    as (_ & _ & st & Hrun & Hnd & _).
  - lia.
  - lia.
  - unfold Int.max_int. lia.
  - intros v. exists v. reflexivity.
  - simpl. lia.
  - exists st. split; [exact Hrun | exact Hnd].
Defined.

Lemma components_nonempty_and_counted_witness :
  ∃ st result,
    run_marking (acc := SquareBracketAccess bool) (connect := FourConnect)
      scenario_grid (3, 3) 9 = Ok st ∧
    ConnectComponentFinder (acc := SquareBracketAccess bool) (connect := FourConnect)
      scenario_grid (3, 3) 9 = Ok result ∧
    (∀ k cc, result !! k = Some cc → cc ≠ ∅) ∧
    length result = size (assigned_labels (labelStorage st)).
Proof.
  destruct (components_nonempty_and_counted (acc := SquareBracketAccess bool)
              (connect := FourConnect) scenario_grid 3 3 9)
    as (st & result & Hrun & Hres & Hne & _ & Hsize).
  - lia.
  - lia.
  - unfold Int.max_int. lia.
  - intros v. exists v. reflexivity.
  - simpl. lia.
  - exists st, result. split; [exact Hrun |]. split; [exact Hres |].
    split; [|exact Hsize]. intros k cc Hcc. exact (proj1 (Hne k cc Hcc)).
Defined.

Lemma invalid_size_rejected_witness :
  ConnectComponentFinder (acc := SquareBracketAccess bool) (connect := FourConnect)
    scenario_grid (0, 3) 9 = Throw InvalidDimension ∧
  ConnectComponentFinder (acc := SquareBracketAccess bool) (connect := FourConnect)
    scenario_grid (3, 3) 9 ≠ Throw InvalidDimension.
Proof.
  split.
  - apply (invalid_size_rejected (acc := SquareBracketAccess bool)
             (connect := FourConnect) scenario_grid 0 3 9).
    left. lia.
  - apply (invalid_size_rejected (acc := SquareBracketAccess bool)
             (connect := FourConnect) scenario_grid 3 3 9).
    + lia.
    + lia.
    + intros v. discriminate.
Defined.


(** * Further properties of the code *)

(** ** The label grid: [Quick2DSizeT::operator()] *)

Lemma lab_unfold L p : lab L p = Quick2DSizeT.get L p.1 p.2.
Proof. reflexivity. Qed.

Lemma relabel_unfold L p v : relabel L p v = Quick2DSizeT.set L p.1 p.2 v.
Proof. reflexivity. Qed.

(** X1.  In a grid of the shape the constructor gives it, the index
    [row * cols + col] of a coordinate of the grid is computed without
    overflow, falls inside the vector, and is the index of no other
    coordinate of the grid. *)
Theorem grid_slots_in_range_and_distinct (size : IntPair) (L : Quick2DSizeT.t)
    (p q : IntPair) :
  1 ≤ size.1 → 1 ≤ size.2 → size.1 * size.2 ≤ Int.max_int → wf size L →
  in_grid size p → in_grid size q →
  Quick2DSizeT.slot L p.1 p.2 = p.1 * size.2 + p.2 ∧
  (0 ≤ Quick2DSizeT.slot L p.1 p.2 < Z.of_nat (length (Quick2DSizeT.data L))) ∧
  (Quick2DSizeT.slot L p.1 p.2 = Quick2DSizeT.slot L q.1 q.2 → p = q).
Proof.
  intros Hrows Hcols Hfit HL Hp Hq.
  destruct (slot_in_grid size Hrows Hcols Hfit L p HL Hp) as [Hsp Hrp].
  destruct (slot_in_grid size Hrows Hcols Hfit L q HL Hq) as [Hsq Hrq].
  destruct HL as [_ Hlen]. split_and!.
  - done.
  - lia.
  - rewrite Hlen. lia.
  - rewrite Hsp, Hsq. by apply slot_inj.
Qed.

Lemma grid_slots_in_range_and_distinct_witness :
  let L := {| Quick2DSizeT.cols := 3;
              Quick2DSizeT.data := replicate 6 Quick2DSizeT.NOLABEL |} in
  Quick2DSizeT.slot L 1 2 = 5 ∧
  (Quick2DSizeT.slot L 1 2 = Quick2DSizeT.slot L 0 1 → (1, 2) = (0, 1)).
Proof.
  intros L.
  destruct (grid_slots_in_range_and_distinct (2, 3) L (1, 2) (0, 1))
    as (Hs & _ & Hinj).
  - simpl. lia.
  - simpl. lia.
  - unfold Int.max_int. simpl. lia.
  - split; reflexivity.
  - split; simpl; lia.
  - split; simpl; lia.
  - split; [exact Hs | exact Hinj].
Defined.

(** X2.  Writing a slot and reading it back: after [s(row, col) = v] the
    coordinate reads [v], every other coordinate of the grid reads what it
    read before, and the grid keeps its shape. *)
Theorem grid_write_then_read (size : IntPair) (L : Quick2DSizeT.t)
    (p : IntPair) (v : Z) :
  1 ≤ size.1 → 1 ≤ size.2 → size.1 * size.2 ≤ Int.max_int → wf size L →
  in_grid size p →
  Quick2DSizeT.get (Quick2DSizeT.set L p.1 p.2 v) p.1 p.2 = v ∧
  (∀ q, in_grid size q → q ≠ p →
     Quick2DSizeT.get (Quick2DSizeT.set L p.1 p.2 v) q.1 q.2
     = Quick2DSizeT.get L q.1 q.2) ∧
  Quick2DSizeT.cols (Quick2DSizeT.set L p.1 p.2 v) = Quick2DSizeT.cols L ∧
  length (Quick2DSizeT.data (Quick2DSizeT.set L p.1 p.2 v))
  = length (Quick2DSizeT.data L).
Proof.
  intros Hrows Hcols Hfit HL Hp. split; [|split; [|split]].
  - rewrite <- (relabel_unfold L p v), <- (lab_unfold (relabel L p v) p).
    by apply (lab_relabel_eq size).
  - intros q Hq Hne.
    rewrite <- (relabel_unfold L p v), <- (lab_unfold (relabel L p v) q).
    rewrite <- (lab_unfold L q). apply (lab_relabel_ne size); [done.. |].
    congruence.
  - unfold Quick2DSizeT.set. case_bool_decide; reflexivity.
  - unfold Quick2DSizeT.set. case_bool_decide; [reflexivity |].
    cbn [Quick2DSizeT.data]. apply length_insert.
Qed.

Lemma grid_write_then_read_witness :
  let L := {| Quick2DSizeT.cols := 3;
              Quick2DSizeT.data := replicate 6 Quick2DSizeT.NOLABEL |} in
  Quick2DSizeT.get (Quick2DSizeT.set L 1 2 7) 1 2 = 7.
Proof.
  intros L.
  destruct (grid_write_then_read (2, 3) L (1, 2) 7) as (Hread & _).
  - simpl. lia.
  - simpl. lia.
  - unfold Int.max_int. simpl. lia.
  - split; reflexivity.
  - split; simpl; lia.
  - exact Hread.
Defined.

(** X3.  [operator()] does not compare [col] with the number of columns: as
    long as the index stays inside the vector, the position one row further
    down is also reached as (row, col + cols), for reading and for writing. *)
Theorem grid_column_not_checked (size : IntPair) (L : Quick2DSizeT.t)
    (row col v : Z) :
  1 ≤ size.1 → 1 ≤ size.2 → size.1 * size.2 ≤ Int.max_int → wf size L →
  in_grid size (row, col) → in_grid size (row + 1, col) →
  Quick2DSizeT.get L row (col + size.2) = Quick2DSizeT.get L (row + 1) col ∧
  Quick2DSizeT.set L row (col + size.2) v = Quick2DSizeT.set L (row + 1) col v.
Proof.
  intros Hrows Hcols Hfit HL [Hr Hc] [Hr' _]. simpl in *.
  assert (Quick2DSizeT.slot L row (col + size.2)
          = Quick2DSizeT.slot L (row + 1) col) as Hslot.
  { unfold Quick2DSizeT.slot. destruct HL as [-> _].
    assert (0 ≤ row * size.2 ∧ (row + 1) * size.2 + size.2 ≤ size.1 * size.2) by nia.
    unfold Int.max_int in Hfit.
    rewrite !mul_exact, !add_exact;
      unfold Int.in_range, Int.min_int, Int.max_int; lia. }
  unfold Quick2DSizeT.get, Quick2DSizeT.set. by rewrite Hslot.
Qed.

Lemma grid_column_not_checked_witness :
  let L := {| Quick2DSizeT.cols := 3;
              Quick2DSizeT.data := replicate 6 Quick2DSizeT.NOLABEL |} in
  Quick2DSizeT.set L 0 4 7 = Quick2DSizeT.set L 1 1 7.
Proof.
  intros L.
  destruct (grid_column_not_checked (2, 3) L 0 1 7) as (_ & Hwrite).
  - simpl. lia.
  - simpl. lia.
  - unfold Int.max_int. simpl. lia.
  - split; reflexivity.
  - split; simpl; lia.
  - split; simpl; lia.
  - exact Hwrite.
Defined.

(** ** The connectivity policies: [GetNeighbour] *)

Lemma FourConnect_elem r c q :
  Int.min_int < r < Int.max_int → Int.min_int < c < Int.max_int →
  q ∈ @GetNeighbour FourConnect (r, c) ↔
  q = (r + 1, c) ∨ q = (r, c + 1) ∨ q = (r - 1, c) ∨ q = (r, c - 1).
Proof.
  intros Hr Hc. rewrite FourConnect_exact by done.
  rewrite !elem_of_cons, elem_of_nil. tauto.
Qed.

Lemma FourConnect_in_EightConnect r c q :
  Int.min_int < r < Int.max_int → Int.min_int < c < Int.max_int →
  q ∈ @GetNeighbour FourConnect (r, c) → q ∈ @GetNeighbour EightConnect (r, c).
Proof.
  intros Hr Hc Hq. apply FourConnect_elem in Hq; [|done..].
  apply EightConnect_elem; [done.. |]. destruct_or!; subst q.
  - exists 1, 0. split_and!; try lia. f_equal; lia.
  - exists 0, 1. split_and!; try lia. f_equal; lia.
  - exists (-1), 0. split_and!; try lia. f_equal; lia.
  - exists 0, (-1). split_and!; try lia. f_equal; lia.
Qed.

(** X4.  Away from the two ends of the [int] range, under either policy no
    coordinate is a neighbour of itself, being a neighbour is symmetric, and
    every 4-neighbour is an 8-neighbour. *)
Theorem neighbours_irreflexive_symmetric (r c r' c' : Z) :
  Int.min_int < r < Int.max_int → Int.min_int < c < Int.max_int →
  Int.min_int < r' < Int.max_int → Int.min_int < c' < Int.max_int →
  ((r, c) ∉ @GetNeighbour FourConnect (r, c)) ∧
  ((r, c) ∉ @GetNeighbour EightConnect (r, c)) ∧
  ((r', c') ∈ @GetNeighbour FourConnect (r, c) →
   (r, c) ∈ @GetNeighbour FourConnect (r', c')) ∧
  ((r', c') ∈ @GetNeighbour EightConnect (r, c) →
   (r, c) ∈ @GetNeighbour EightConnect (r', c')) ∧
  ((r', c') ∈ @GetNeighbour FourConnect (r, c) →
   (r', c') ∈ @GetNeighbour EightConnect (r, c)).
Proof.
  intros Hr Hc Hr' Hc'. split_and!.
  - rewrite FourConnect_elem by done. intros H. destruct_or!; simplify_eq; lia.
  - rewrite EightConnect_elem by done. intros (dr & dc & _ & _ & Hne & Heq).
    simplify_eq. apply Hne. lia.
  - rewrite !FourConnect_elem by done. intros H.
    destruct_or!; simplify_eq.
    + do 2 right. left. f_equal; lia.
    + do 3 right. f_equal; lia.
    + left. f_equal; lia.
    + right. left. f_equal; lia.
  - rewrite !EightConnect_elem by done. intros (dr & dc & Hdr & Hdc & Hne & Heq).
    simplify_eq. exists (- dr), (- dc). split_and!; try lia. f_equal; lia.
  - by apply FourConnect_in_EightConnect.
Qed.

Lemma neighbours_irreflexive_symmetric_witness :
  ((2, 3) ∉ @GetNeighbour EightConnect (2, 3)) ∧
  ((1, 2) ∈ @GetNeighbour EightConnect (2, 3) →
   (2, 3) ∈ @GetNeighbour EightConnect (1, 2)).
Proof.
  destruct (neighbours_irreflexive_symmetric 2 3 1 2) as (_ & Hirr & _ & Hsym & _).
  - unfold Int.min_int, Int.max_int. lia.
  - unfold Int.min_int, Int.max_int. lia.
  - unfold Int.min_int, Int.max_int. lia.
  - unfold Int.min_int, Int.max_int. lia.
  - split; [exact Hirr | exact Hsym].
Defined.

(** ** What the finder reads, and what it does with a failing classifier *)

Lemma foldM_pointwise {A B : Type} (f g : A → B → outcome A) (l : list B) :
  (∀ a x, x ∈ l → f a x = g a x) → ∀ a, foldM f a l = foldM g a l.
Proof.
  induction l as [|x l IH]; intros Hfg a; [done |]. simpl.
  rewrite (Hfg a x) by left. destruct (g a x); simpl; [|done..].
  apply IH. intros b y Hy. apply Hfg. by right.
Qed.


Section Agreement.
Context {ImgType1 ImgType2 ImgDT : Type}.
Context {acc1 : Access ImgType1 ImgDT} {acc2 : Access ImgType2 ImgDT}.
Context {bp : BinaryPredicate ImgDT} {connect : Connectivity}.

Variable img1 : ImgType1.
Variable img2 : ImgType2.
Variable size : IntPair.

Hypothesis Hagree :
  ∀ p, in_grid size p → access img1 p.1 p.2 = access img2 p.1 p.2.

Lemma visit_neighbour_agree st pos :
  visit_neighbour img1 size st pos = visit_neighbour img2 size st pos.
Proof using Hagree.
  unfold visit_neighbour. destruct (IsPixelPosValid size pos) eqn:Hvalid; [|done].
  apply IsPixelPosValid_spec in Hvalid. by rewrite (Hagree pos Hvalid).
Qed.

Lemma drain_queue_agree fuel st :
  drain_queue img1 size fuel st = drain_queue img2 size fuel st.
Proof using Hagree.
  revert st. induction fuel as [|fuel IH]; intros st; simpl; [done |].
  destruct (Queue.front (myQueue st)); [|done].
  rewrite (foldM_pointwise (visit_neighbour img1 size) (visit_neighbour img2 size))
    by (intros a x _; apply visit_neighbour_agree).
  destruct (foldM _ _ _); simpl; [apply IH | done | done].
Qed.

Lemma scan_pixel_agree fuel p st :
  in_grid size p →
  scan_pixel img1 size fuel p.1 st p.2 = scan_pixel img2 size fuel p.1 st p.2.
Proof using Hagree.
  intros Hp. unfold scan_pixel. rewrite (Hagree p Hp).
  destruct (pred _) as [b| |]; simpl; [|done..]. destruct b; [|done].
  by rewrite drain_queue_agree.
Qed.

Lemma finder_agree fuel :
  ConnectComponentFinder img1 size fuel = ConnectComponentFinder img2 size fuel.
Proof using Hagree.
  unfold ConnectComponentFinder, run_marking. case_bool_decide; [done |].
  destruct (Quick2DSizeT.new _ _) as [L| |]; simpl; [|done..].
  rewrite !mark_components_flat.
  rewrite (foldM_pointwise (λ st p, scan_pixel img1 size fuel p.1 st p.2)
                           (λ st p, scan_pixel img2 size fuel p.1 st p.2)); [done |].
  intros st p Hp. apply scan_pixel_agree. by apply elem_of_scan_order.
Qed.
End Agreement.

(** X5.  The finder reads the image only at coordinates of the grid, and
    only through the accessor: two images, of whatever representation and
    under whatever accessors, that hold the same pixel at every coordinate
    of the grid give the same outcome. *)
Theorem finder_reads_grid_only {ImgType1 ImgType2 ImgDT : Type}
    {acc1 : Access ImgType1 ImgDT} {acc2 : Access ImgType2 ImgDT}
    {bp : BinaryPredicate ImgDT} {connect : Connectivity}
    (img1 : ImgType1) (img2 : ImgType2) (size : IntPair) (fuel : nat) :
  (∀ p, in_grid size p → access img1 p.1 p.2 = access img2 p.1 p.2) →
  ConnectComponentFinder (acc := acc1) img1 size fuel
  = ConnectComponentFinder (acc := acc2) img2 size fuel.
Proof. intros Hagree. by apply finder_agree. Qed.

Lemma finder_reads_grid_only_witness :
  ConnectComponentFinder (acc := SquareBracketAccess bool) (connect := EightConnect)
    padded_grid (3, 3) 9
  = ConnectComponentFinder (acc := RoundBracketAccess bool) (connect := EightConnect)
      (λ row col, bool_decide (row = col ∨ (row = 0 ∧ col = 1))) (3, 3) 9.
Proof.
  apply (finder_reads_grid_only (acc1 := SquareBracketAccess bool)
           (acc2 := RoundBracketAccess bool) padded_grid
           (λ row col, bool_decide (row = col ∨ (row = 0 ∧ col = 1))) (3, 3) 9).
  intros [r c] [Hr Hc]. simpl in Hr, Hc.
  assert (r = 0 ∨ r = 1 ∨ r = 2) as Hr' by lia.
  assert (c = 0 ∨ c = 1 ∨ c = 2) as Hc' by lia.
  destruct_or!; subst; reflexivity.
Defined.

Section Classifier.
Context {ImgType ImgDT : Type}.
Context {acc : Access ImgType ImgDT}.
Context {bp : BinaryPredicate ImgDT}.
Context {connect : Connectivity}.

Variable img : ImgType.
Variable size : IntPair.



End Classifier.


(** ** The order of the seeds and the work of the queue *)

Lemma seqZ_sorted m n : StronglySorted Z.lt (seqZ m n).
Proof.
  remember (Z.to_nat n) as k eqn:Hk. revert m n Hk.
  induction k as [|k IH]; intros m n Hk.
  - rewrite seqZ_nil by lia. constructor.
  - rewrite seqZ_cons by lia. constructor.
    + apply IH. lia.
    + apply Forall_forall. intros x Hx. apply elem_of_seqZ in Hx. lia.
Qed.

Lemma scan_order_sorted size : StronglySorted row_major_lt (scan_order size).
Proof.
  unfold scan_order.
  pose proof (seqZ_sorted 0 size.1) as Hrws. pose proof (seqZ_sorted 0 size.2) as Hcls.
  revert Hrws Hcls. generalize (seqZ 0 size.1) as rws. generalize (seqZ 0 size.2) as cls.
  intros cls rws Hrws Hcls. induction Hrws as [|i rws Hrws IH Hi]; [constructor |].
  rewrite bind_cons. apply StronglySorted_app_2.
  - intros x1 x2 Hx1 Hx2. apply list_elem_of_fmap in Hx1 as (j & -> & Hj).
    apply list_elem_of_bind in Hx2 as (i' & Hx2 & Hi').
    apply list_elem_of_fmap in Hx2 as (j' & -> & Hj').
    left. simpl. rewrite Forall_forall in Hi. by apply Hi.
  - clear -Hcls. induction Hcls as [|j cls Hcls IH Hj]; [constructor |].
    rewrite fmap_cons. constructor; [done |].
    apply Forall_forall. intros x (j' & -> & Hj')%list_elem_of_fmap.
    right. simpl. rewrite Forall_forall in Hj. split; [done | by apply Hj].
  - done.
Qed.

Lemma sublist_elem {A : Type} (l1 l2 : list A) x :
  sublist l1 l2 → x ∈ l1 → x ∈ l2.
Proof.
  induction 1 as [|y l1 l2 Hsub IH|y l1 l2 Hsub IH]; [done | |].
  - intros [->|Hx]%elem_of_cons; [left | right; by apply IH].
  - intros Hx. right. by apply IH.
Qed.

Lemma StronglySorted_sublist {A : Type} (R : relation A) (l1 l2 : list A) :
  sublist l1 l2 → StronglySorted R l2 → StronglySorted R l1.
Proof.
  induction 1 as [|x l1 l2 Hsub IH|x l1 l2 Hsub IH]; intros Hsorted.
  - constructor.
  - apply StronglySorted_cons in Hsorted as [Hall Hsorted].
    constructor; [by apply IH |]. rewrite Forall_forall in Hall |- *.
    intros y Hy. apply Hall. by eapply sublist_elem.
  - apply StronglySorted_cons in Hsorted as [_ Hsorted]. by apply IH.
Qed.

Lemma StronglySorted_lookup {A : Type} (R : relation A) (l : list A) i j x y :
  StronglySorted R l → l !! i = Some x → l !! j = Some y → (i < j)%nat → R x y.
Proof.
  intros Hsorted. revert i j. induction Hsorted as [|z l Hsorted IH Hz];
    intros i j Hi Hj Hlt; [done |].
  destruct j as [|j]; [lia |]. destruct i as [|i].
  - injection Hi as ->. rewrite Forall_forall in Hz. apply Hz.
    by eapply list_elem_of_lookup_2.
  - apply (IH i j); [done | done | lia].
Qed.

Section Order.
Context {ImgType ImgDT : Type}.
Context {acc : Access ImgType ImgDT}.
Context {bp : BinaryPredicate ImgDT}.
Context {connect : Connectivity}.

Variable img : ImgType.
Variable size : IntPair.

Hypothesis Hrows : 1 ≤ size.1.
Hypothesis Hcols : 1 ≤ size.2.
Hypothesis Hfit : size.1 * size.2 ≤ Int.max_int.
Hypothesis Hsup : supported bp.

Lemma seeds_lead_step done seeds st p st' :
  scan_inv img size done seeds st →
  (∀ x, x ∈ done → in_grid size x) →
  seeds_lead done seeds (labelStorage st) →
  scan_inv img size (done ++ [p]) (seeds ++ if is_seed img st p then [p] else []) st' →
  keeps size (labelStorage st) (labelStorage st') →
  seeds_lead (done ++ [p]) (seeds ++ if is_seed img st p then [p] else [])
    (labelStorage st').
Proof.
  intros Hinv Hdone Hlead Hinv' Hkeeps k s Hk.
  pose proof NOLABEL_lt_labelStart as Hstart.
  assert (∀ x, x ∈ done → lab (labelStorage st) x = Quick2DSizeT.NOLABEL →
               lab (labelStorage st') x = Quick2DSizeT.NOLABEL) as Hbg.
  { intros x Hx HN.
    destruct (decide (lab (labelStorage st') x = Quick2DSizeT.NOLABEL)) as [|Hne]; [done |].
    destruct (inv_sound _ _ _ _ _ Hinv' x (Hdone x Hx) Hne) as [Hfg _].
    by destruct (inv_done _ _ _ _ _ Hinv x Hx Hfg). }
  apply lookup_app_Some in Hk as [Hk|[Hlen Hk]].
  - destruct (Hlead k s Hk) as (pre & post & -> & Hpre).
    exists pre, (post ++ [p]). split; [by rewrite <- app_assoc |].
    intros x Hx. assert (x ∈ pre ++ s :: post) as Hxd by (apply elem_of_app; by left).
    destruct (decide (lab (labelStorage st) x = Quick2DSizeT.NOLABEL)) as [HN|Hne].
    + rewrite (Hbg x Hxd HN). lia.
    + rewrite (Hkeeps x (Hdone x Hxd) Hne). by apply Hpre.
  - destruct (is_seed img st p); [|by rewrite lookup_nil in Hk].
    apply list_lookup_singleton_Some in Hk as [Hk ->].
    assert (k = length seeds) as -> by lia.
    exists done, []. split; [done |]. intros x Hx.
    destruct (decide (lab (labelStorage st) x = Quick2DSizeT.NOLABEL)) as [HN|Hne].
    + rewrite (Hbg x Hx HN). lia.
    + rewrite (Hkeeps x (Hdone x Hx) Hne).
      destruct (inv_sound _ _ _ _ _ Hinv x (Hdone x Hx) Hne) as [_ Hrange].
      rewrite (inv_label _ _ _ _ _ Hinv) in Hrange. lia.
Qed.

Lemma scan_all_lead fuel l done seeds st :
  scan_inv img size done seeds st →
  seeds_lead done seeds (labelStorage st) →
  (∀ x, x ∈ done → in_grid size x) → (∀ p, p ∈ l → in_grid size p) →
  Z.of_nat (length done + length l) ≤ size.1 * size.2 →
  (Z.to_nat (size.1 * size.2) ≤ fuel)%nat →
  ∃ st', foldM (λ st p, scan_pixel img size fuel p.1 st p.2) st l = Ok st' ∧
         scan_inv img size (done ++ l) (seeds ++ seeds_from img size fuel st l) st' ∧
         seeds_lead (done ++ l) (seeds ++ seeds_from img size fuel st l)
           (labelStorage st').
Proof using Hrows Hcols Hfit Hsup.
  revert done seeds st.
  induction l as [|p l IH]; intros done seeds st Hinv Hlead Hdone Hl Hlen Hfuel.
  - exists st. by rewrite !app_nil_r.
  - simpl in Hlen.
    destruct (scan_pixel_spec img size Hrows Hcols Hfit Hsup fuel done seeds st p)
      as (st1 & Hrun1 & Hinv1 & Hk1); [done | apply Hl; left | lia | done |].
    pose proof (seeds_lead_step done seeds st p st1 Hinv Hdone Hlead Hinv1 Hk1) as Hlead1.
    destruct (IH _ _ _ Hinv1 Hlead1) as (st2 & Hrun2 & Hinv2 & Hlead2).
    { intros x [Hx| ->%list_elem_of_singleton]%elem_of_app; [by apply Hdone |].
      apply Hl. left. }
    { intros q Hq. apply Hl. by right. }
    { rewrite length_app. simpl. lia. }
    { done. }
    exists st2. simpl. rewrite Hrun1. simpl.
    rewrite <- !app_assoc in Hinv2, Hlead2. done.
Qed.

Lemma run_marking_lead fuel :
  (Z.to_nat (size.1 * size.2) ≤ fuel)%nat →
  ∃ st, run_marking img size fuel = Ok st ∧
        scan_inv img size (scan_order size) (seeds img size fuel) st ∧
        seeds_lead (scan_order size) (seeds img size fuel) (labelStorage st).
Proof using Hrows Hcols Hfit Hsup.
  intros Hfuel.
  destruct (run_marking_spec img size Hrows Hcols Hfit Hsup fuel Hfuel)
    as (st & Hrun & Hinv).
  exists st. split; [done |]. split; [done |].
  revert Hrun. unfold run_marking, seeds.
  rewrite (new_valid size Hrows Hcols Hfit). simpl.
  rewrite mark_components_flat.
  set (st0 := {| labelStorage := _; currentLabel := labelStart; myQueue := Queue.empty |}).
  intros Hrun.
  destruct (scan_all_lead fuel (scan_order size) [] [] st0) as (st' & Hrun' & _ & Hlead).
  - pose proof (new_lab size Hrows Hcols Hfit) as Hnew.
    split; simpl.
    + apply new_wf.
    + done.
    + lia.
    + done.
    + intros p Hp Hne. by rewrite Hnew in Hne.
    + by intros p ?%elem_of_nil.
    + done.
    + intros _ p n Hp Hne. by rewrite Hnew in Hne.
    + apply NoDup_nil_2.
    + intros p. split; [by intros ?%elem_of_nil |].
      intros [Hp Hne]. by rewrite Hnew in Hne.
  - by intros k s ?.
  - by intros x ?%elem_of_nil.
  - intros p. apply elem_of_scan_order.
  - simpl. rewrite length_scan_order; lia.
  - done.
  - rewrite Hrun in Hrun'. injection Hrun' as <-. exact Hlead.
Qed.
End Order.

Section Runs.
Context {ImgType ImgDT : Type}.
Context {acc : Access ImgType ImgDT}.
Context {bp : BinaryPredicate ImgDT}.
Context {connect : Connectivity}.

(** X7.  The seed of a component is its first pixel in row-major order:
    every other coordinate of component [k] comes after the [k]-th seed,
    and the seeds themselves are in strictly increasing row-major order, so
    the components are numbered by the position of their first pixel. *)
Theorem seed_is_first_pixel (img : ImgType) (rows cols : Z) (fuel : nat) :
  1 ≤ rows → 1 ≤ cols → rows * cols ≤ Int.max_int → supported bp →
  (Z.to_nat (rows * cols) ≤ fuel)%nat →
  ∃ result,
    ConnectComponentFinder img (rows, cols) fuel = Ok result ∧
    ∀ k s, seeds img (rows, cols) fuel !! k = Some s →
      member result k s ∧
      (∀ x, member result k x → x = s ∨ row_major_lt s x) ∧
      (∀ k' s', (k < k')%nat → seeds img (rows, cols) fuel !! k' = Some s' →
                row_major_lt s s').
Proof.
  intros Hrows Hcols Hfit Hsup Hfuel.
  destruct (finder_spec img (rows, cols) Hrows Hcols Hfit Hsup fuel Hfuel)
    as (st & result & Hrun & Hinv & Hres & Hlen & Hmem).
  destruct (run_marking_lead img (rows, cols) Hrows Hcols Hfit Hsup fuel Hfuel)
    as (st' & Hrun' & _ & Hlead).
  rewrite Hrun in Hrun'. injection Hrun' as <-.
  exists result. split; [done |]. intros k s Hs.
  destruct (inv_seed _ _ _ _ _ Hinv k s Hs) as (Hsfg & Hslab & _).
  apply lookup_lt_Some in Hs as Hk. split_and!.
  - apply Hmem. split_and!; [apply Hsfg | lia | done].
  - intros x (Hx & _ & Hlab)%Hmem.
    destruct (Hlead k s Hs) as (pre & post & Hsplit & Hpre).
    pose proof (scan_order_sorted (rows, cols)) as Hsorted. rewrite Hsplit in Hsorted.
    apply elem_of_scan_order in Hx. rewrite Hsplit in Hx.
    apply elem_of_app in Hx as [Hx|Hx]; [by destruct (Hpre x Hx) |].
    apply elem_of_cons in Hx as [->|Hx]; [by left | right].
    apply StronglySorted_app_1_r, StronglySorted_cons in Hsorted as [Hall _].
    rewrite Forall_forall in Hall. by apply Hall.
  - intros k' s' Hlt Hs'.
    apply (StronglySorted_lookup row_major_lt (seeds img (rows, cols) fuel) k k');
      [|done..].
    eapply StronglySorted_sublist; [apply seeds_sublist | apply scan_order_sorted].
Qed.

(** X8.  There are at most as many components as pixels, so the label
    counter, which starts at [INT_MIN + 1], ends at [labelStart] plus the
    number of components without wrapping around, at 0 at most; every label
    in the grid lies strictly between the NOLABEL sentinel and 0. *)
Theorem label_counter_never_wraps (img : ImgType) (rows cols : Z) (fuel : nat) :
  1 ≤ rows → 1 ≤ cols → rows * cols ≤ Int.max_int → supported bp →
  (Z.to_nat (rows * cols) ≤ fuel)%nat →
  ∃ st result,
    run_marking img (rows, cols) fuel = Ok st ∧
    ConnectComponentFinder img (rows, cols) fuel = Ok result ∧
    Z.of_nat (length result) ≤ rows * cols ∧
    currentLabel st = labelStart + Z.of_nat (length result) ∧
    currentLabel st ≤ 0 ∧
    ∀ p, in_grid (rows, cols) p →
         lab (labelStorage st) p = Quick2DSizeT.NOLABEL ∨
         Quick2DSizeT.NOLABEL < lab (labelStorage st) p < 0.
Proof.
  intros Hrows Hcols Hfit Hsup Hfuel.
  destruct (finder_spec img (rows, cols) Hrows Hcols Hfit Hsup fuel Hfuel)
    as (st & result & Hrun & Hinv & Hres & Hlen & Hmem).
  pose proof (inv_label _ _ _ _ _ Hinv) as Hlabel.
  pose proof (inv_count _ _ _ _ _ Hinv) as Hcount.
  assert (Z.of_nat (length (scan_order (rows, cols))) = rows * cols) as Hso
    by (apply length_scan_order; simpl; lia).
  pose proof NOLABEL_lt_labelStart as Hstart. pose proof labelStart_eq as Hls.
  unfold Int.max_int, Int.min_int in *.
  exists st, result. split_and!; [done | done | lia | lia | lia |].
  intros p Hp.
  destruct (decide (lab (labelStorage st) p = Quick2DSizeT.NOLABEL)) as [|Hne];
    [by left | right].
  destruct (inv_sound _ _ _ _ _ Hinv p Hp Hne) as [_ Hrange]. lia.
Qed.

(** X9.  On a grid of at least one row and one column whose number of
    pixels [rows * cols] is representable as an [int], with a classifier
    that supports the pixel type and fuel for [rows * cols] iterations, the
    finder returns a result, and the result has no component exactly when
    the grid has no foreground pixel. *)
Theorem no_foreground_no_component (img : ImgType) (rows cols : Z) (fuel : nat) :
  1 ≤ rows → 1 ≤ cols → rows * cols ≤ Int.max_int → supported bp →
  (Z.to_nat (rows * cols) ≤ fuel)%nat →
  ∃ result,
    ConnectComponentFinder img (rows, cols) fuel = Ok result ∧
    (result = [] ↔ ∀ p, ¬ foreground img (rows, cols) p).
Proof.
  intros Hrows Hcols Hfit Hsup Hfuel.
  destruct (finder_spec img (rows, cols) Hrows Hcols Hfit Hsup fuel Hfuel)
    as (st & result & Hrun & Hinv & Hres & Hlen & Hmem).
  exists result. split; [done |]. split.
  - intros -> p Hp. simpl in Hlen.
    destruct (foreground_index _ _ _ _ _ Hinv Hp) as (k & Hk & _). lia.
  - intros Hnone. apply nil_length_inv. rewrite Hlen.
    destruct (seeds img (rows, cols) fuel !! 0%nat) as [s|] eqn:Hs.
    + destruct (inv_seed _ _ _ _ _ Hinv 0%nat s Hs) as (Hsfg & _).
      by destruct (Hnone s).
    + apply lookup_ge_None in Hs. lia.
Qed.

(** X10.  In a run, the coordinates pushed onto the work queue are the
    foreground coordinates of the grid, each pushed once: no background
    pixel is enqueued, and the queue sees at most [rows * cols] pushes. *)
Theorem foreground_enqueued_exactly_once (img : ImgType) (rows cols : Z) (fuel : nat) :
  1 ≤ rows → 1 ≤ cols → rows * cols ≤ Int.max_int → supported bp →
  (Z.to_nat (rows * cols) ≤ fuel)%nat →
  ∃ st,
    run_marking img (rows, cols) fuel = Ok st ∧
    NoDup (Queue.pushed (myQueue st)) ∧
    (∀ p, p ∈ Queue.pushed (myQueue st) ↔ foreground img (rows, cols) p) ∧
    Z.of_nat (length (Queue.pushed (myQueue st))) ≤ rows * cols.
Proof.
  intros Hrows Hcols Hfit Hsup Hfuel.
  destruct (run_marking_spec img (rows, cols) Hrows Hcols Hfit Hsup fuel Hfuel)
    as (st & Hrun & Hinv).
  pose proof (inv_history _ _ _ _ _ Hinv) as Hnd.
  exists st. split_and!; [done | done | |].
  - intros p. rewrite (inv_pushed _ _ _ _ _ Hinv). split.
    + intros [Hp Hne]. by apply (inv_sound _ _ _ _ _ Hinv).
    + intros Hp. split; [apply Hp |].
      apply (inv_done _ _ _ _ _ Hinv); [|done]. apply elem_of_scan_order, Hp.
  - pose proof (length_scan_order (rows, cols)) as Hso. simpl in Hso.
    rewrite <- Hso by lia.
    apply inj_le, submseteq_length, NoDup_submseteq; [done |].
    intros p Hp. apply (inv_pushed _ _ _ _ _ Hinv) in Hp as [Hp _].
    by apply elem_of_scan_order.
Qed.
End Runs.

Lemma seed_is_first_pixel_witness :
  ∃ result,
    ConnectComponentFinder (acc := SquareBracketAccess bool) (connect := FourConnect)
      scenario_grid (3, 3) 9 = Ok result ∧
    ∀ k s, seeds (acc := SquareBracketAccess bool) (connect := FourConnect)
             scenario_grid (3, 3) 9 !! k = Some s →
           ∀ x, member result k x → x = s ∨ row_major_lt s x.
Proof.
  destruct (seed_is_first_pixel (acc := SquareBracketAccess bool)
              (connect := FourConnect) scenario_grid 3 3 9)
    as (result & Hres & Hfirst).
  - lia.
  - lia.
  - unfold Int.max_int. lia.
  - intros v. exists v. reflexivity.
  - simpl. lia.
  - exists result. split; [exact Hres |].
    intros k s Hs. exact (proj1 (proj2 (Hfirst k s Hs))).
Defined.

Lemma label_counter_never_wraps_witness :
  ∃ st result,
    run_marking (acc := SquareBracketAccess bool) (connect := FourConnect)
      scenario_grid (3, 3) 9 = Ok st ∧
    ConnectComponentFinder (acc := SquareBracketAccess bool) (connect := FourConnect)
      scenario_grid (3, 3) 9 = Ok result ∧
    currentLabel st = labelStart + Z.of_nat (length result).
Proof.
  destruct (label_counter_never_wraps (acc := SquareBracketAccess bool)
              (connect := FourConnect) scenario_grid 3 3 9)
    as (st & result & Hrun & Hres & _ & Hlabel & _).
  - lia.
  - lia.
  - unfold Int.max_int. lia.
  - intros v. exists v. reflexivity.
  - simpl. lia.
  - exists st, result. split; [exact Hrun |]. split; [exact Hres | exact Hlabel].
Defined.

Lemma no_foreground_no_component_witness :
  ∃ result,
    ConnectComponentFinder (acc := RoundBracketAccess bool) (connect := EightConnect)
      (λ _ _, false) (2, 3) 6 = Ok result ∧
    (result = [] ↔
     ∀ p, ¬ foreground (acc := RoundBracketAccess bool) (λ _ _, false) (2, 3) p).
Proof.
  apply (no_foreground_no_component (acc := RoundBracketAccess bool)
           (connect := EightConnect) (λ _ _, false) 2 3 6).
  - lia.
  - lia.
  - unfold Int.max_int. lia.
  - intros v. exists v. reflexivity.
  - simpl. lia.
Defined.

Lemma foreground_enqueued_exactly_once_witness :
  ∃ st,
    run_marking (acc := SquareBracketAccess bool) (connect := EightConnect)
      scenario_grid (3, 3) 9 = Ok st ∧
    ∀ p, p ∈ Queue.pushed (myQueue st)
         ↔ foreground (acc := SquareBracketAccess bool) scenario_grid (3, 3) p.
Proof.
  destruct (foreground_enqueued_exactly_once (acc := SquareBracketAccess bool)
              (connect := EightConnect) scenario_grid 3 3 9)
    as (st & Hrun & _ & Hpushed & _).
  - lia.
  - lia.
  - unfold Int.max_int. lia.
  - intros v. exists v. reflexivity.
  - simpl. lia.
  - exists st. split; [exact Hrun | exact Hpushed].
Defined.

(** ** The two connectivity policies compared *)

Section Policies.
Context {ImgType ImgDT : Type}.
Context {acc : Access ImgType ImgDT}.
Context {bp : BinaryPredicate ImgDT}.

Variable img : ImgType.
Variable size : IntPair.

Hypothesis Hrows : 1 ≤ size.1.
Hypothesis Hcols : 1 ≤ size.2.
Hypothesis Hfit : size.1 * size.2 ≤ Int.max_int.
Hypothesis Hsup : supported bp.

Lemma in_grid_interior p :
  in_grid size p →
  Int.min_int < p.1 < Int.max_int ∧ Int.min_int < p.2 < Int.max_int.
Proof using Hrows Hcols Hfit.
  intros [Hr Hc].
  assert (size.1 ≤ Int.max_int ∧ size.2 ≤ Int.max_int) as [Hr' Hc'] by nia.
  unfold Int.min_int. lia.
Qed.

Lemma path_four_eight p q :
  path (connect := FourConnect) img size p q →
  path (connect := EightConnect) img size p q.
Proof using Hrows Hcols Hfit.
  induction 1 as [p Hp|p n r Hp Hn Hnr IH]; [by apply path_refl |].
  eapply path_step; [done | | exact IH].
  destruct (in_grid_interior p) as [Hr Hc]; [apply Hp |].
  destruct p as [pr pc]. by apply FourConnect_in_EightConnect.
Qed.

(** When every pixel is foreground, a 4-connected path leads from (0, 0)
    down the first column and then along the row to any coordinate. *)
Lemma path_down_first_column (n : nat) :
  (∀ p, in_grid size p → foreground img size p) →
  Z.of_nat n < size.1 →
  path (connect := FourConnect) img size (0, 0) (Z.of_nat n, 0).
Proof using Hrows Hcols Hfit.
  intros Hall. induction n as [|n IH]; intros Hn.
  - apply path_refl, Hall. split; simpl; lia.
  - eapply path_trans; [apply IH; lia |].
    assert (in_grid size (Z.of_nat n, 0)) as Hp by (split; simpl; lia).
    assert (in_grid size (Z.of_nat (S n), 0)) as Hq by (split; simpl; lia).
    apply path_edge; [by apply Hall | by apply Hall |].
    destruct (in_grid_interior _ Hp) as [Hr Hc].
    apply FourConnect_elem; [done.. |]. left. f_equal. lia.
Qed.

Lemma path_along_row (r : Z) (m : nat) :
  (∀ p, in_grid size p → foreground img size p) →
  0 ≤ r < size.1 → Z.of_nat m < size.2 →
  path (connect := FourConnect) img size (r, 0) (r, Z.of_nat m).
Proof using Hrows Hcols Hfit.
  intros Hall Hr. induction m as [|m IH]; intros Hm.
  - apply path_refl, Hall. split; simpl; lia.
  - eapply path_trans; [apply IH; lia |].
    assert (in_grid size (r, Z.of_nat m)) as Hp by (split; simpl; lia).
    assert (in_grid size (r, Z.of_nat (S m))) as Hq by (split; simpl; lia).
    apply path_edge; [by apply Hall | by apply Hall |].
    destruct (in_grid_interior _ Hp) as [Hr' Hc'].
    apply FourConnect_elem; [done.. |]. right. left. f_equal. lia.
Qed.

Lemma path_from_origin p :
  (∀ p, in_grid size p → foreground img size p) →
  in_grid size p → path (connect := FourConnect) img size (0, 0) p.
Proof using Hrows Hcols Hfit.
  intros Hall Hp. destruct p as [r c]. destruct Hp as [Hr Hc]. simpl in Hr, Hc.
  apply path_trans with (q := (r, 0)).
  - pose proof (path_down_first_column (Z.to_nat r) Hall) as H.
    rewrite Z2Nat.id in H by lia. apply H. lia.
  - pose proof (path_along_row r (Z.to_nat c) Hall Hr) as H.
    rewrite Z2Nat.id in H by lia. apply H. lia.
Qed.

(** Coordinates that the 4-connected run labels alike are labelled alike
    by the 8-connected run. *)
Lemma same_label_four_eight fuel st4 st8 p q :
  scan_inv (connect := FourConnect) img size (scan_order size)
    (seeds (connect := FourConnect) img size fuel) st4 →
  scan_inv (connect := EightConnect) img size (scan_order size)
    (seeds (connect := EightConnect) img size fuel) st8 →
  foreground img size p → foreground img size q →
  lab (labelStorage st4) p = lab (labelStorage st4) q →
  lab (labelStorage st8) p = lab (labelStorage st8) q.
Proof using Hrows Hcols Hfit.
  intros Hinv4 Hinv8 Hp Hq Hsame.
  destruct (foreground_index _ _ _ _ _ Hinv4 Hp) as (k & Hk & Hlab).
  destruct (lookup_lt_is_Some_2 (seeds (connect := FourConnect) img size fuel) k)
    as [s Hs]; [done |].
  destruct (inv_seed _ _ _ _ _ Hinv4 k s Hs) as (_ & _ & Hreach).
  assert (∀ x, foreground img size x →
               lab (labelStorage st8) x ≠ Quick2DSizeT.NOLABEL) as Hall.
  { intros x Hx. apply (inv_done _ _ _ _ _ Hinv8); [|done].
    apply elem_of_scan_order, Hx. }
  pose proof (EightConnect_symmetric size Hrows Hcols Hfit) as Hsym.
  rewrite (path_same_label _ _ _ _ _ s p Hinv8 Hsym Hall);
    [|apply path_four_eight, Hreach; [apply Hp | done]].
  rewrite (path_same_label _ _ _ _ _ s q Hinv8 Hsym Hall);
    [done | apply path_four_eight, Hreach; [apply Hq | congruence]].
Qed.
End Policies.

(** X11.  The 4-connected components refine the 8-connected ones: two
    coordinates that lie in one component under 4-connectivity lie in one
    component under 8-connectivity, and 8-connectivity never gives more
    components than 4-connectivity. *)
Theorem four_components_refine_eight {ImgType ImgDT : Type}
    {acc : Access ImgType ImgDT} {bp : BinaryPredicate ImgDT}
    (img : ImgType) (rows cols : Z) (fuel : nat) :
  1 ≤ rows → 1 ≤ cols → rows * cols ≤ Int.max_int → supported bp →
  (Z.to_nat (rows * cols) ≤ fuel)%nat →
  ∃ result4 result8,
    ConnectComponentFinder (connect := FourConnect) img (rows, cols) fuel = Ok result4 ∧
    ConnectComponentFinder (connect := EightConnect) img (rows, cols) fuel = Ok result8 ∧
    (∀ k p q, member result4 k p → member result4 k q →
              ∃ k', member result8 k' p ∧ member result8 k' q) ∧
    (length result8 ≤ length result4)%nat.
Proof.
  intros Hrows Hcols Hfit Hsup Hfuel.
  destruct (finder_spec (connect := FourConnect) img (rows, cols)
              Hrows Hcols Hfit Hsup fuel Hfuel)
    as (st4 & result4 & Hrun4 & Hinv4 & Hres4 & Hlen4 & Hmem4).
  destruct (finder_spec (connect := EightConnect) img (rows, cols)
              Hrows Hcols Hfit Hsup fuel Hfuel)
    as (st8 & result8 & Hrun8 & Hinv8 & Hres8 & Hlen8 & Hmem8).
  pose proof (λ p q, same_label_four_eight img (rows, cols) Hrows Hcols Hfit
                       fuel st4 st8 p q Hinv4 Hinv8) as Hsame.
  pose proof NOLABEL_lt_labelStart as Hstart.
  exists result4, result8. split_and!; [done | done | |].
  - intros k p q (Hp & Hk & Hlp)%Hmem4 (Hq & _ & Hlq)%Hmem4.
    assert (foreground img (rows, cols) p) as Hpfg.
    { apply (inv_sound _ _ _ _ _ Hinv4); [done | lia]. }
    assert (foreground img (rows, cols) q) as Hqfg.
    { apply (inv_sound _ _ _ _ _ Hinv4); [done | lia]. }
    destruct (foreground_index _ _ _ _ _ Hinv8 Hpfg) as (k' & Hk' & Hlab').
    exists k'. split; apply Hmem8; (split_and!; [done | lia |]); [done |].
    rewrite <- (Hsame p q Hpfg Hqfg); [done | congruence].
  - set (f := λ s : IntPair, Z.to_nat (lab (labelStorage st4) s - labelStart)).
    rewrite Hlen8, Hlen4.
    rewrite <- (length_fmap f (seeds (connect := EightConnect) img (rows, cols) fuel)).
    rewrite <- (length_seq (length (seeds (connect := FourConnect) img (rows, cols) fuel)) 0).
    apply submseteq_length, NoDup_submseteq.
    + apply NoDup_alt. intros i j x Hi Hj.
      rewrite list_lookup_fmap in Hi, Hj.
      destruct (seeds (connect := EightConnect) img (rows, cols) fuel !! i)
        as [si|] eqn:Hsi; [|done].
      destruct (seeds (connect := EightConnect) img (rows, cols) fuel !! j)
        as [sj|] eqn:Hsj; [|done].
      simpl in Hi, Hj.
      destruct (inv_seed _ _ _ _ _ Hinv8 i si Hsi) as (Hsifg & Hli & _).
      destruct (inv_seed _ _ _ _ _ Hinv8 j sj Hsj) as (Hsjfg & Hlj & _).
      destruct (foreground_index _ _ _ _ _ Hinv4 Hsifg) as (ki & _ & Hki).
      destruct (foreground_index _ _ _ _ _ Hinv4 Hsjfg) as (kj & _ & Hkj).
      assert (lab (labelStorage st4) si = lab (labelStorage st4) sj) as Heq.
      { injection Hi as Hi. injection Hj as Hj. unfold f in Hi, Hj. lia. }
      pose proof (Hsame si sj Hsifg Hsjfg Heq). lia.
    + intros x (s & -> & Hs)%list_elem_of_fmap.
      apply list_elem_of_lookup in Hs as [i Hs].
      destruct (inv_seed _ _ _ _ _ Hinv8 i s Hs) as (Hsfg & _).
      destruct (foreground_index _ _ _ _ _ Hinv4 Hsfg) as (k & Hk & Hlab).
      apply elem_of_seq. unfold f. lia.
Qed.

Lemma four_components_refine_eight_witness :
  ∃ result4 result8,
    ConnectComponentFinder (acc := SquareBracketAccess bool) (connect := FourConnect)
      scenario_grid (3, 3) 9 = Ok result4 ∧
    ConnectComponentFinder (acc := SquareBracketAccess bool) (connect := EightConnect)
      scenario_grid (3, 3) 9 = Ok result8 ∧
    (length result8 ≤ length result4)%nat.
Proof.
  destruct (four_components_refine_eight (acc := SquareBracketAccess bool)
              scenario_grid 3 3 9)
    as (result4 & result8 & Hres4 & Hres8 & _ & Hle).
  - lia.
  - lia.
  - unfold Int.max_int. lia.
  - intros v. exists v. reflexivity.
  - simpl. lia.
  - exists result4, result8. split; [exact Hres4 |]. split; [exact Hres8 | exact Hle].
Defined.

(** X12.  On a grid of at least one row and one column whose number of
    pixels [rows * cols] is representable as an [int], with a classifier
    that supports the pixel type and fuel for [rows * cols] iterations:
    when every pixel of the grid is foreground, the finder under 4- or
    8-connectivity returns exactly one component, and that component is
    the whole grid. *)
Theorem all_foreground_one_component {ImgType ImgDT : Type}
    {acc : Access ImgType ImgDT} {bp : BinaryPredicate ImgDT}
    {connect : Connectivity} (img : ImgType) (rows cols : Z) (fuel : nat) :
  1 ≤ rows → 1 ≤ cols → rows * cols ≤ Int.max_int → supported bp →
  connect = FourConnect ∨ connect = EightConnect →
  (∀ p, in_grid (rows, cols) p → pred (access img p.1 p.2) = Ok true) →
  (Z.to_nat (rows * cols) ≤ fuel)%nat →
  ∃ cc : gset IntPair,
    ConnectComponentFinder img (rows, cols) fuel = Ok [cc] ∧
    ∀ p, p ∈ cc ↔ in_grid (rows, cols) p.
Proof.
  intros Hrows Hcols Hfit Hsup Hconn Hall Hfuel.
  destruct (finder_spec img (rows, cols) Hrows Hcols Hfit Hsup fuel Hfuel)
    as (st & result & Hrun & Hinv & Hres & Hlen & Hmem).
  assert (∀ p, in_grid (rows, cols) p → foreground img (rows, cols) p) as Hfg.
  { intros p Hp. split; [done | by apply Hall]. }
  assert (symmetric (rows, cols)) as Hsym.
  { destruct Hconn as [-> | ->];
      [by apply FourConnect_symmetric | by apply EightConnect_symmetric]. }
  assert (∀ p, in_grid (rows, cols) p → path img (rows, cols) (0, 0) p) as Hpath.
  { intros p Hp.
    pose proof (path_from_origin img (rows, cols) Hrows Hcols Hfit p Hfg Hp) as H4.
    destruct Hconn as [-> | ->]; [done |].
    by apply (path_four_eight img (rows, cols) Hrows Hcols Hfit). }
  assert (in_grid (rows, cols) (0, 0)) as Horigin by (split; simpl; lia).
  assert (∀ p, in_grid (rows, cols) p →
               lab (labelStorage st) p = lab (labelStorage st) (0, 0)) as Hsame.
  { intros p Hp. eapply path_same_label; [done | done | | by apply Hpath].
    intros x Hx. apply (inv_done _ _ _ _ _ Hinv); [|done].
    apply elem_of_scan_order, Hx. }
  destruct (foreground_index _ _ _ _ _ Hinv (Hfg _ Horigin)) as (k0 & Hk0 & Hlab0).
  assert (∀ k, (k < length (seeds img (rows, cols) fuel))%nat → k = k0) as Hone.
  { intros k Hk.
    destruct (lookup_lt_is_Some_2 (seeds img (rows, cols) fuel) k) as [s Hs]; [done |].
    destruct (inv_seed _ _ _ _ _ Hinv k s Hs) as (Hsfg & Hslab & _).
    rewrite (Hsame s) in Hslab by apply Hsfg. lia. }
  assert (length result = 1%nat) as Hlen1.
  { pose proof (Hone 0%nat). destruct (decide (length result = 1%nat)); [done |].
    pose proof (Hone 1%nat). lia. }
  assert (k0 = 0%nat) as -> by lia.
  destruct result as [|cc [|cc' result]]; simpl in Hlen1; try lia.
  exists cc. split; [done |]. intros p. split.
  - intros Hp. assert (member [cc] 0 p) as (Hg & _)%Hmem by by exists cc. done.
  - intros Hp. destruct (proj2 (Hmem 0%nat p)) as (cc' & Hcc' & Hin).
    + split_and!; [done | simpl; lia |]. by rewrite (Hsame p).
    + by injection Hcc' as <-.
Qed.

Lemma all_foreground_one_component_witness :
  ∃ cc : gset IntPair,
    ConnectComponentFinder (acc := RoundBracketAccess bool) (connect := FourConnect)
      (λ _ _, true) (2, 3) 6 = Ok [cc] ∧
    ∀ p, p ∈ cc ↔ in_grid (2, 3) p.
Proof.
  apply (all_foreground_one_component (acc := RoundBracketAccess bool)
           (connect := FourConnect) (λ _ _, true) 2 3 6).
  - lia.
  - lia.
  - unfold Int.max_int. lia.
  - intros v. exists v. reflexivity.
  - left. reflexivity.
  - intros p _. reflexivity.
  - simpl. lia.
Defined.

(** ** The flood-fill loop, and the exceptions of a run *)

Lemma foldM_throws_in {A B : Type} (f : A → B → outcome A) (P : exn → Prop)
    (l : list B) :
  (∀ a x e, x ∈ l → f a x = Throw e → P e) →
  ∀ a e, foldM f a l = Throw e → P e.
Proof.
  induction l as [|x l IH]; intros Hf a e Hrun; simpl in Hrun; [done |].
  destruct (f a x) as [a1|e1|] eqn:Hx; simpl in Hrun; try done.
  - eapply IH; [|done]. intros b y e' Hy. apply Hf. by right.
  - injection Hrun as <-. eapply Hf; [left | done].
Qed.

Section Loop.
Context {ImgType ImgDT : Type}.
Context {acc : Access ImgType ImgDT}.
Context {bp : BinaryPredicate ImgDT}.
Context {connect : Connectivity}.

Variable img : ImgType.
Variable size : IntPair.

(** X13.  The [while] loop, started in any state whose queue holds
    foreground coordinates, ends after at most as many iterations as there
    are unlabelled slots and queued coordinates.  It leaves the queue
    empty and the label counter as it was; it gives the current label to
    the coordinates it pushes and changes no other slot; and each of those
    coordinates was unlabelled, is foreground and is reached by a path from
    a coordinate that was in the queue at the start. *)
Theorem flood_fill_loop (fuel : nat) (st : state) :
  1 ≤ size.1 → 1 ≤ size.2 → size.1 * size.2 ≤ Int.max_int → supported bp →
  wf size (labelStorage st) → currentLabel st ≠ Quick2DSizeT.NOLABEL →
  (∀ p, p ∈ Queue.items (myQueue st) → foreground img size p) →
  (free (labelStorage st) + length (Queue.items (myQueue st)) ≤ fuel)%nat →
  ∃ st' added,
    drain_queue img size fuel st = Ok st' ∧
    Queue.items (myQueue st') = [] ∧
    Queue.pushed (myQueue st') = Queue.pushed (myQueue st) ++ added ∧
    currentLabel st' = currentLabel st ∧
    (∀ p, in_grid size p →
          lab (labelStorage st') p
          = if decide (p ∈ added) then currentLabel st else lab (labelStorage st) p) ∧
    (∀ p, p ∈ added →
          foreground img size p ∧
          lab (labelStorage st) p = Quick2DSizeT.NOLABEL ∧
          ∃ q, q ∈ Queue.items (myQueue st) ∧ path img size q p).
Proof.
  intros Hrows Hcols Hfit Hsup HL Hc Hq Hfuel.
  destruct (drain_queue_spec img size Hrows Hcols Hfit Hsup fuel st HL Hc Hq Hfuel)
    as (st' & added & Hrun & (_ & _ & Hin & Hlab & _) & Hcur & Hitems & Hpushed
        & Hreach & _).
  exists st', added. split_and!; [done | done | done | done | done |].
  intros p Hp. destruct (Hin p Hp) as [Hfg HN]. split_and!; [done | done |].
  by apply Hreach.
Qed.

(** A failing visit or scan step names the pixel of the grid on which the
    classifier failed. *)
Lemma visit_neighbour_throws_at st pos e :
  visit_neighbour img size st pos = Throw e →
  ∃ p, in_grid size p ∧ pred (access img p.1 p.2) = Throw e.
Proof.
  unfold visit_neighbour. destruct (IsPixelPosValid size pos) eqn:Hvalid; [|done].
  apply IsPixelPosValid_spec in Hvalid.
  destruct (pred (access img pos.1 pos.2)) as [b| |] eqn:Hb; simpl; try done.
  - destruct b; simpl; [by case_bool_decide | done].
  - intros [= <-]. by exists pos.
Qed.

Lemma drain_queue_throws_at fuel st e :
  drain_queue img size fuel st = Throw e →
  ∃ p, in_grid size p ∧ pred (access img p.1 p.2) = Throw e.
Proof.
  revert st. induction fuel as [|fuel IH]; intros st; simpl;
    destruct (Queue.front (myQueue st)); try done.
  destruct (foldM _ _ _) as [st1|e1|] eqn:Hvis; simpl; try done.
  - apply IH.
  - intros [= <-].
    eapply (foldM_throws _ (λ e, ∃ p, in_grid size p ∧ pred (access img p.1 p.2) = Throw e));
      [|exact Hvis].
    intros a x e'. apply visit_neighbour_throws_at.
Qed.

Lemma scan_pixel_throws_at fuel p st e :
  in_grid size p → scan_pixel img size fuel p.1 st p.2 = Throw e →
  ∃ q, in_grid size q ∧ pred (access img q.1 q.2) = Throw e.
Proof.
  intros Hp. unfold scan_pixel.
  destruct (pred (access img p.1 p.2)) as [b| |] eqn:Hb; simpl; try done.
  - destruct b; [|done].
    destruct (drain_queue _ _ _ _) as [st2|e2|] eqn:Hd; simpl; try done.
    + by case_bool_decide.
    + intros [= <-]. by eapply drain_queue_throws_at.
  - intros [= <-]. by exists p.
Qed.

(** The label counter through the steps of a run. *)
Lemma visit_neighbour_counter st pos st' :
  visit_neighbour img size st pos = Ok st' → currentLabel st' = currentLabel st.
Proof. by intros [->|(_ & _ & ->)]%visit_neighbour_cases. Qed.

Lemma drain_queue_counter fuel st st' :
  drain_queue img size fuel st = Ok st' → currentLabel st' = currentLabel st.
Proof.
  revert st. induction fuel as [|fuel IH]; intros st; simpl;
    destruct (Queue.front (myQueue st)); try done; try by intros [= <-].
  destruct (foldM _ _ _) as [st1| |] eqn:Hvis; simpl; try done.
  intros Hrun. rewrite (IH _ Hrun).
  apply (foldM_preserves _ (λ a b : state, currentLabel b = currentLabel a)) in Hvis;
    [done | done | congruence |].
  intros a x a' _. apply visit_neighbour_counter.
Qed.

Lemma scan_pixel_counter fuel i st j st' :
  scan_pixel img size fuel i st j = Ok st' →
  currentLabel st' = currentLabel st ∨
  currentLabel st' = Int.add (currentLabel st) 1.
Proof.
  unfold scan_pixel.
  destruct (pred (access img i j)) as [b| |]; simpl; try done.
  destruct b; [|intros [= <-]; by left].
  destruct (drain_queue _ _ _ _) as [st2| |] eqn:Hd; simpl; try done.
  apply drain_queue_counter in Hd.
  case_bool_decide; intros [= <-]; simpl in *; [right | left]; congruence.
Qed.

Lemma scan_counter_bound fuel l st st' (k : Z) :
  foldM (λ st p, scan_pixel img size fuel p.1 st p.2) st l = Ok st' →
  labelStart ≤ currentLabel st ≤ labelStart + k →
  0 ≤ k → k + Z.of_nat (length l) ≤ Int.max_int →
  labelStart ≤ currentLabel st' ≤ labelStart + k + Z.of_nat (length l).
Proof.
  revert st k. induction l as [|p l IH]; intros st k Hrun Hcur Hk Hmax; simpl in *.
  - injection Hrun as <-. lia.
  - destruct (scan_pixel _ _ _ _ _ _) as [st1| |] eqn:Hpix; simpl in Hrun; try done.
    assert (labelStart ≤ currentLabel st1 ≤ labelStart + (k + 1)) as Hcur1.
    { apply scan_pixel_counter in Hpix as [-> | ->]; [lia |].
      rewrite add_exact; [lia |]. rewrite labelStart_eq in *.
      unfold Int.in_range, Int.max_int, Int.min_int in *. lia. }
    specialize (IH st1 (k + 1) Hrun Hcur1). lia.
Qed.

(** X14.  On a grid of valid, representable size the finder throws nothing
    of its own: an exception of the run is an exception that the classifier
    threw on the pixel of some coordinate of the grid. *)
Theorem only_classifier_exceptions (fuel : nat) (e : exn) :
  1 ≤ size.1 → 1 ≤ size.2 → size.1 * size.2 ≤ Int.max_int →
  ConnectComponentFinder img size fuel = Throw e →
  ∃ p, in_grid size p ∧ pred (access img p.1 p.2) = Throw e.
Proof.
  intros Hrows Hcols Hfit. unfold ConnectComponentFinder, run_marking.
  rewrite bool_decide_eq_false_2 by lia.
  rewrite (new_valid size) by done. simpl. rewrite mark_components_flat.
  destruct (foldM _ _ _) as [st|e1|] eqn:Hmark; simpl; try done.
  - apply (scan_counter_bound _ _ _ _ 0) in Hmark; simpl; [|lia | lia |].
    + rewrite sub_exact; [by rewrite bool_decide_eq_false_2 by lia |].
      rewrite length_scan_order in Hmark by lia. rewrite labelStart_eq in *.
      unfold Int.in_range, Int.max_int, Int.min_int in *. lia.
    + rewrite length_scan_order by lia. lia.
  - intros [= <-].
    eapply (foldM_throws_in _ (λ e, ∃ p, in_grid size p ∧ pred (access img p.1 p.2) = Throw e));
      [|exact Hmark].
    intros a x e' Hx. apply scan_pixel_throws_at. by apply elem_of_scan_order.
Qed.
End Loop.

Lemma flood_fill_loop_witness :
  let st := {| labelStorage :=
                 relabel {| Quick2DSizeT.cols := 3;
                            Quick2DSizeT.data := replicate 9 Quick2DSizeT.NOLABEL |}
                         (0, 0) labelStart;
               currentLabel := labelStart;
               myQueue := Queue.push Queue.empty (0, 0) |} in
  ∃ st' added,
    drain_queue (acc := SquareBracketAccess bool) (connect := FourConnect)
      scenario_grid (3, 3) 9 st = Ok st' ∧
    Queue.items (myQueue st') = [] ∧
    Queue.pushed (myQueue st') = [(0, 0)] ++ added.
Proof.
  intros st.
  destruct (flood_fill_loop (acc := SquareBracketAccess bool) (connect := FourConnect)
              scenario_grid (3, 3) 9 st)
    as (st' & added & Hrun & Hitems & Hpushed & _).
  - simpl. lia.
  - simpl. lia.
  - unfold Int.max_int. simpl. lia.
  - intros v. exists v. reflexivity.
  - split; reflexivity.
  - vm_compute. discriminate.
  - intros p Hp. apply list_elem_of_singleton in Hp. subst p.
    split; [split; simpl; lia | reflexivity].
  - vm_compute. lia.
  - exists st', added. split; [exact Hrun |]. split; [exact Hitems | exact Hpushed].
Defined.

Lemma only_classifier_exceptions_witness :
  ∃ p, in_grid (2, 2) p ∧
       pred (BinaryPredicate := BinaryPredicate_primary nat)
            (access (Access := RoundBracketAccess nat) (λ _ _, 1%nat) p.1 p.2)
       = Throw UnsupportedPixelType.
Proof.
  apply (only_classifier_exceptions (acc := RoundBracketAccess nat)
           (bp := BinaryPredicate_primary nat) (connect := EightConnect)
           (λ _ _, 1%nat) (2, 2) 4 UnsupportedPixelType).
  - simpl. lia.
  - simpl. lia.
  - unfold Int.max_int. simpl. lia.
  - vm_compute. reflexivity.
Defined.
